(** * agent-twitter-client: the Scraper session, pager, tweet queries and
      media uploader

    A shallow embedding of [src/scraper.ts] (class [Scraper]), of the
    tweet helpers of [tweets.ts] ([getTweetWhere], [getTweetsWhere],
    [checkTweetMatches], [getLatestTweet], [getTweet],
    [getTweetAnonymous]) and of [parseCommandLine] of [command.ts].

    Asynchronous methods are run to completion in a state-and-exception
    monad: the state holds the receiver ([this]), the heap of authorizer
    objects, the state of the remote service and the chronological trace of
    what the method did (requests with their results, yielded tweets,
    timer waits).  [await] is sequencing; [throw] is the [Threw] outcome.
    [while] loops that the source does not bound take fuel. *)

From Stdlib Require Import ZArith NArith Lia Ascii Floats.
From stdpp Require Import base gmap strings list fin_maps pretty.

Local Open Scope string_scope.
Local Open Scope nat_scope.
Local Open Scope list_scope.

(** ** JavaScript values and tweets *)

(** The values a [Tweet] property can hold.  A number is an IEEE 754
    double.  Arrays, dates and nested tweets are objects: [===] compares
    them by identity, so they are represented by their reference.  The
    members of [Object.prototype] are objects too, each with an identity of
    its own; they are named. *)
Inductive JsValue :=
| JsUndefined
| JsNull
| JsBool (b : bool)
| JsNumber (x : float)
| JsString (s : string)
| JsObject (ref : nat)
| JsBuiltin (name : string).

(** [a === b]: values of different types differ, numbers are compared as
    doubles (so [NaN] differs from itself and the two zeros are equal),
    objects by identity. *)
Definition strict_eq (a b : JsValue) : bool :=
  match a, b with
  | JsUndefined, JsUndefined => true
  | JsNull, JsNull => true
  | JsBool x, JsBool y => bool_decide (x = y)
  | JsNumber x, JsNumber y => PrimFloat.eqb x y
  | JsString x, JsString y => bool_decide (x = y)
  | JsObject x, JsObject y => bool_decide (x = y)
  | JsBuiltin x, JsBuiltin y => bool_decide (x = y)
  | _, _ => false
  end.

(** A [Tweet] is a plain JS object: its own properties, and behind them
    [Object.prototype]. *)
Abbreviation Tweet := (gmap string JsValue).

(** The properties every plain object inherits from [Object.prototype]. *)
Definition Object_prototype : list string :=
  ["constructor"; "hasOwnProperty"; "isPrototypeOf";
   "propertyIsEnumerable"; "toLocaleString"; "toString"; "valueOf";
   "__proto__"; "__defineGetter__"; "__defineSetter__";
   "__lookupGetter__"; "__lookupSetter__"].

(** [t[key]]: the own property if there is one, else the inherited one,
    else [undefined]. *)
Definition prop (t : Tweet) (key : string) : JsValue :=
  match t !! key with
  | Some v => v
  | None =>
      if bool_decide (key ∈ Object_prototype) then JsBuiltin key
      else JsUndefined
  end.

(** [tweet.id] as the optional string the interface declares. *)
Definition tweet_id (t : Tweet) : option string :=
  match prop t "id" with JsString s => Some s | _ => None end.

(** Truthiness of an optional string: [undefined] and [""] are falsy. *)
Definition truthy_str (c : option string) : bool :=
  match c with
  | Some s => negb (bool_decide (s = ""))
  | None => false
  end.

(** ** Errors and results *)

(** What is thrown: an [Error] with its message, or the [TypeError] of a
    property read on [null] or [undefined].  The message of the latter is
    the engine's; it is recorded by the property whose read failed. *)
Inductive JsError :=
| Error (message : string)
| TypeError (reading : string).

#[global] Instance JsError_eq_dec : EqDecision JsError.
Proof. solve_decision. Defined.

(** [RequestApiResult<T>]: [{success: true, value}] or
    [{success: false, err}]. *)
Inductive RequestApiResult (T : Type) :=
| Success (value : T)
| Failure (err : JsError).
Arguments Success {T} value.
Arguments Failure {T} err.

Inductive Outcome (A : Type) :=
| Returned (a : A)
| Threw (e : JsError)
| OutOfFuel.
Arguments Returned {A} a.
Arguments Threw {A} e.
Arguments OutOfFuel {A}.

(** ** Media upload records *)

Record ProcessingInfo := {
  state : string;
  check_after_secs : option Z
}.

Record MediaUploadResponse := {
  media_id_string : option string;
  processing_info : option ProcessingInfo
}.

Inductive MediaType := image_jpeg | video_mp4.

(** A Node [Buffer]: a length and the byte at each index below it. *)
Record Buffer := {
  buf_length : N;
  buf_byte : N → Byte.byte
}.

(** [buf.slice(start, end)] for [0 <= start]; [end] is clamped to the
    length and an empty range gives an empty buffer. *)
Definition Buffer_slice (b : Buffer) (start end_ : N) : Buffer :=
  let e := N.min end_ (buf_length b) in
  let s := N.min start e in
  {| buf_length := e - s; buf_byte := λ i, buf_byte b (s + i) |}.

(** ** Timeline pages *)

Record QueryTweetsResponse := {
  tweets : list Tweet;
  next : option string
}.

(** ** Requests *)

(** The requests the modelled methods send, by endpoint, with the
    variables the source puts into the URL or the body.  The authorizer
    argument of [requestApi] only decorates the outgoing request and is
    left out. *)
Inductive Request :=
| UserTweets (userId : string) (count : nat) (cursor : option string)
| TweetDetail (focalTweetId : string)
| TweetResultByRestId (tweetId : string)
| MediaInit (total_bytes : N) (media_type : MediaType)
    (media_category : string)
| MediaAppend (media_id : string) (segment_index : N) (media : Buffer)
| MediaFinalize (media_id : string)
| MediaStatus (media_id : string).

(** What the source reads from a decoded JSON body.  The parsers live in
    [timeline-v2.ts], which is not part of the modelled files; they are
    taken as an interface.
    - [body_is_nullish v]: [v] is [null] or [undefined], so that reading a
      property of it throws a [TypeError];
    - [body_is_falsy v]: [!v];
    - [asMediaUploadResponse v]: the properties [media_id_string] and
      [processing_info] of a body that is not nullish;
    - [tweetResultData v]: [v.data] when it is truthy. *)
Class ResponseBody (Body : Type) := {
  asMediaUploadResponse : Body → MediaUploadResponse;
  parseTimelineTweetsV2 : Body → QueryTweetsResponse;
  parseThreadedConversation : Body → list Tweet;
  body_is_nullish : Body → bool;
  body_is_falsy : Body → bool;
  tweetResultData : Body → option Body;
  parseTimelineEntryItemContentRaw : Body → string → option Tweet
}.

(** ** Cookies and authorizers *)

(** A cookie record as exported: [{name, value, domain, path, secure,
    httpOnly, sameSite}]. *)
Record Cookie := {
  c_name : string;
  c_value : string;
  c_domain : string;
  c_path : string;
  c_secure : bool;
  c_httpOnly : bool;
  c_sameSite : string
}.

#[global] Instance Cookie_eq_dec : EqDecision Cookie.
Proof. solve_decision. Defined.

Record CookieData := {
  d_value : string;
  d_secure : bool;
  d_httpOnly : bool;
  d_sameSite : string
}.

Definition CookieKey : Type := string * string * string.

Definition cookie_key (c : Cookie) : CookieKey :=
  (c_domain c, c_path c, c_name c).

Definition cookie_data (c : Cookie) : CookieData :=
  {| d_value := c_value c; d_secure := c_secure c;
     d_httpOnly := c_httpOnly c; d_sameSite := c_sameSite c |}.

Definition cookie_of (kd : CookieKey * CookieData) : Cookie :=
  let '((dom, pth, nm), d) := kd in
  {| c_name := nm; c_value := d_value d; c_domain := dom; c_path := pth;
     c_secure := d_secure d; c_httpOnly := d_httpOnly d;
     c_sameSite := d_sameSite d |}.

(** Modelled from the spec: the cookie store ([CookieJar] of the
    tough-cookie package, created in [auth.ts]) is "a mapping from
    (domain, path, name) to cookie value + attributes", "exported as an
    ordered sequence of cookie records; imported the same way". *)
Abbreviation CookieJar := (gmap CookieKey CookieData).

Inductive AuthClass := TwitterGuestAuth | TwitterUserAuth.

#[global] Instance AuthClass_eq_dec : EqDecision AuthClass.
Proof. solve_decision. Defined.

(** An authorizer object: its class, the bearer token it was built with
    and its cookie jar. *)
Record AuthObject := {
  auth_class : AuthClass;
  auth_bearer : string;
  auth_jar : CookieJar
}.

(** The fields of a [Scraper]: [auth] and [authTrends] are references
    into the heap of authorizer objects. *)
Record Scraper := {
  auth : nat;
  authTrends : nat;
  token : string
}.

Record Credentials := {
  username : string;
  password : string;
  email : option string;
  twoFactorSecret : option string
}.

(** ** Tweet queries *)

(** A promise that has settled. *)
Inductive Promise (A : Type) :=
| Resolved (a : A)
| Rejected (e : JsError).
Arguments Resolved {A} a.
Arguments Rejected {A} e.

(** What a predicate query returns: [boolean | Promise<boolean>]. *)
Inductive PredicateResult :=
| Plain (b : bool)
| Async (p : Promise bool).

(** [TweetQuery]: a partial tweet to compare property by property, or a
    predicate. *)
Inductive TweetQuery :=
| ByFields (options : Tweet)
| ByPredicate (query : Tweet → PredicateResult).

(** Truthiness of the raw value a predicate returned: a promise is an
    object, hence truthy whatever it settles to. *)
Definition truthy_result (r : PredicateResult) : bool :=
  match r with
  | Plain b => b
  | Async _ => true
  end.

(** [await r]: a plain value is itself, a promise gives its resolution or
    throws its rejection. *)
Definition await_result (r : PredicateResult) : Outcome bool :=
  match r with
  | Plain b => Returned b
  | Async (Resolved b) => Returned b
  | Async (Rejected e) => Threw e
  end.

Definition Object_keys (o : Tweet) : list string := (map_to_list o).*1.

Definition checkTweetMatches (tweet options : Tweet) : bool :=
  forallb (λ key, strict_eq (prop tweet key) (prop options key))
    (Object_keys options).

(** [getTweetWhere]; [tweets] lists what the async iterable produces, in
    order. *)
Fixpoint getTweetWhere (tweets : list Tweet) (query : TweetQuery)
    : Outcome (option Tweet) :=
  match tweets with
  | [] => Returned None
  | tweet :: rest =>
      let matches :=
        match query with
        | ByPredicate f => await_result (f tweet)
        | ByFields options => Returned (checkTweetMatches tweet options)
        end in
      match matches with
      | Returned true => Returned (Some tweet)
      | Returned false => getTweetWhere rest query
      | Threw e => Threw e
      | OutOfFuel => OutOfFuel
      end
  end.

(** [getTweetsWhere]: the raw result of the predicate is tested, without
    [await]. *)
Fixpoint getTweetsWhere (tweets : list Tweet) (query : TweetQuery)
    : list Tweet :=
  match tweets with
  | [] => []
  | tweet :: rest =>
      let matches :=
        match query with
        | ByPredicate f => truthy_result (f tweet)
        | ByFields options => checkTweetMatches tweet options
        end in
      if matches then tweet :: getTweetsWhere rest query
      else getTweetsWhere rest query
  end.

(** ** Media upload constants *)

Definition CHUNK_SIZE : N := 5 * 1024 * 1024.

Definition maxAttempts : nat := 10.

(** [Math.ceil(a / b)] on byte counts. *)
Definition Math_ceil_div (a b : N) : N :=
  (if a mod b =? 0 then a / b else a / b + 1)%N.

(** [x || d] on an optional number: [undefined] and [0] are falsy. *)
Definition or_default (x : option Z) (d : Z) : Z :=
  match x with
  | Some v => if (v =? 0)%Z then d else v
  | None => d
  end.

Definition twUrl : string := "https://twitter.com".

Definition TwitterGuestAuth_new (bearer : string) : AuthObject :=
  {| auth_class := TwitterGuestAuth; auth_bearer := bearer; auth_jar := ∅ |}.

Definition TwitterUserAuth_new (bearer : string) : AuthObject :=
  {| auth_class := TwitterUserAuth; auth_bearer := bearer; auth_jar := ∅ |}.

(** Modelled from the spec: [isLoggedIn] of the authorizer classes
    ([auth.ts], [auth-user.ts]) is the spec's [isAuthenticated()], "pure
    query, true only in the Authenticated variant". *)
Definition Auth_isLoggedIn (o : AuthObject) : bool :=
  bool_decide (auth_class o = TwitterUserAuth).

(** Modelled from the spec: [jar.setCookie(cookie, url)] stores the record
    under its (domain, path, name). *)
Definition CookieJar_setCookie (jar : CookieJar) (c : Cookie) : CookieJar :=
  <[cookie_key c := cookie_data c]> jar.

(** Modelled from the spec: cookies are "imported the same way" they are
    exported; the spec's jar refuses no record. *)
Definition CookieJar_refuses (c : Cookie) (url : string) : option JsError :=
  None.

(** ** The run-time state and its monad *)

Section Model.
Context {Body : Type} `{!ResponseBody Body} {Remote : Type}.

(** The transport ([requestApi] of [api.ts]): the remote service answers a
    request from its current state and moves to a new one. *)
Variable respond : Request → Remote → RequestApiResult Body * Remote.

Inductive Event :=
| Requested (req : Request) (res : RequestApiResult Body)
| Yielded (t : Tweet)
| Slept (ms : Z).

Record St := {
  this : Scraper;
  heap : gmap nat AuthObject;
  remote : Remote;
  trace : list Event
}.

Definition M (A : Type) : Type := St → Outcome A * St.

Definition ret {A} (a : A) : M A := λ s, (Returned a, s).

Definition bind {A B} (m : M A) (k : A → M B) : M B := λ s,
  match m s with
  | (Returned a, s') => k a s'
  | (Threw e, s') => (Threw e, s')
  | (OutOfFuel, s') => (OutOfFuel, s')
  end.

Definition throw {A} (e : JsError) : M A := λ s, (Threw e, s).

Definition out_of_fuel {A} : M A := λ s, (OutOfFuel, s).

Definition emit (ev : Event) : M unit := λ s,
  (Returned tt,
   {| this := this s; heap := heap s; remote := remote s;
      trace := trace s ++ [ev] |}).

Definition requestApi (req : Request) : M (RequestApiResult Body) := λ s,
  let '(res, r') := respond req (remote s) in
  (Returned res,
   {| this := this s; heap := heap s; remote := r';
      trace := trace s ++ [Requested req res] |}).

Definition get_this : M Scraper := λ s, (Returned (this s), s).

Definition set_this (sc : Scraper) : M unit := λ s,
  (Returned tt,
   {| this := sc; heap := heap s; remote := remote s; trace := trace s |}).

Notation "'let*' x ':=' c 'in' k" := (bind c (λ x, k))
  (at level 10, x name, c at level 100, k at level 200,
   format "'[v' 'let*'  x  ':='  c  'in' '/' k ']'").

(** ** Pager: [getUserTweets] and [getUserTweetsIterator] *)

Definition getUserTweets (userId : string) (maxTweets : nat)
    (cursor : option string) : M QueryTweetsResponse :=
  let maxTweets := if 200 <? maxTweets then 200 else maxTweets in
  let cursor_var := if truthy_str cursor then cursor else None in
  let* res := requestApi (UserTweets userId maxTweets cursor_var) in
  match res with
  | Failure err => throw err
  | Success v =>
      let timelineV2 := parseTimelineTweetsV2 v in
      ret {| tweets := tweets timelineV2; next := next timelineV2 |}
  end.

(** The [for ... of response.tweets] loop: yield, count, and leave the
    page as soon as the count reaches [maxTweets].  Returns the count. *)
Fixpoint yield_page (page : list Tweet) (maxTweets retrievedTweets : nat)
    : M nat :=
  match page with
  | [] => ret retrievedTweets
  | tweet :: rest =>
      let* _ := emit (Yielded tweet) in
      let retrievedTweets := S retrievedTweets in
      if maxTweets <=? retrievedTweets then ret retrievedTweets
      else yield_page rest maxTweets retrievedTweets
  end.

(** The [while (retrievedTweets < maxTweets)] loop; one unit of fuel per
    executed body. *)
Fixpoint iterate_pages (fuel : nat) (userId : string) (maxTweets : nat)
    (cursor : option string) (retrievedTweets : nat) : M unit :=
  if retrievedTweets <? maxTweets then
    match fuel with
    | O => out_of_fuel
    | S fuel' =>
        let* response :=
          getUserTweets userId (maxTweets - retrievedTweets) cursor in
        let* retrievedTweets :=
          yield_page (tweets response) maxTweets retrievedTweets in
        let cursor := next response in
        if truthy_str cursor
        then iterate_pages fuel' userId maxTweets cursor retrievedTweets
        else ret tt
    end
  else ret tt.

(** [getUserTweetsIterator(userId, maxTweets)], driven by a consumer that
    takes every tweet.  [maxTweets] and the running count are natural
    numbers. *)
Definition getUserTweetsIterator (fuel : nat) (userId : string)
    (maxTweets : nat) : M unit :=
  iterate_pages fuel userId maxTweets None 0.

(** ** Single tweets: [getTweet], [getTweetAnonymous], [Scraper.getTweet] *)

(** Reading through a reference; a reference that was never assigned (the
    fields are declared [auth!], [authTrends!]) makes the access throw. *)
Definition deref (l : nat) : M AuthObject := λ s,
  match heap s !! l with
  | Some o => (Returned o, s)
  | None => (Threw (Error "TypeError: reference is undefined"), s)
  end.

(** [new TwitterGuestAuth(...)], [new TwitterUserAuth(...)]: the object
    gets a location no object has yet. *)
Definition alloc (o : AuthObject) : M nat := λ s,
  let l := fresh (dom (heap s)) in
  (Returned l,
   {| this := this s; heap := <[l := o]> (heap s); remote := remote s;
      trace := trace s |}).

Definition store (l : nat) (o : AuthObject) : M unit := λ s,
  (Returned tt,
   {| this := this s; heap := <[l := o]> (heap s); remote := remote s;
      trace := trace s |}).

Definition getTweet (id : string) : M (option Tweet) :=
  let* res := requestApi (TweetDetail id) in
  match res with
  | Failure err => throw err
  | Success v =>
      if body_is_falsy v then ret None
      else
        let tweets := parseThreadedConversation v in
        ret (List.find (λ tweet, strict_eq (prop tweet "id") (JsString id))
               tweets)
  end.

Definition getTweetAnonymous (id : string) : M (option Tweet) :=
  let* res := requestApi (TweetResultByRestId id) in
  match res with
  | Failure err => throw err
  | Success v =>
      if body_is_nullish v then throw (TypeError "data")
      else
        match tweetResultData v with
        | None => ret None
        | Some data => ret (parseTimelineEntryItemContentRaw data id)
        end
  end.

Definition Scraper_getTweet (id : string) : M (option Tweet) :=
  let* sc := get_this in
  let* a := deref (auth sc) in
  match auth_class a with
  | TwitterUserAuth => getTweet id
  | TwitterGuestAuth => getTweetAnonymous id
  end.

(** ** Media uploader: [uploadMedia], [checkMediaProcessingStatus] *)

(** The [while (attempts < maxAttempts)] loop. *)
Fixpoint poll_status (fuel : nat) (mediaId : string) (attempts : nat)
    : M MediaUploadResponse :=
  if attempts <? maxAttempts then
    match fuel with
    | O => out_of_fuel
    | S fuel' =>
        let* statusResponse := requestApi (MediaStatus mediaId) in
        match statusResponse with
        | Failure _ =>
            throw (Error "Failed to check media processing status")
        | Success v =>
            if body_is_nullish v then throw (TypeError "processing_info")
            else
              let value := asMediaUploadResponse v in
              match processing_info value with
              | None => ret value
              | Some processingInfo =>
                  if bool_decide (state processingInfo = "succeeded")
                  then ret value
                  else if bool_decide (state processingInfo = "failed")
                  then throw (Error "Video processing failed")
                  else
                    let waitTime :=
                      (or_default (check_after_secs processingInfo) 5
                       * 1000)%Z in
                    let* _ := emit (Slept waitTime) in
                    poll_status fuel' mediaId (attempts + 1)
              end
        end
    end
  else throw (Error "Video processing timed out").

Definition checkMediaProcessingStatus (mediaId : string)
    : M MediaUploadResponse :=
  poll_status maxAttempts mediaId 0.

(** The chunk the loop body cuts for index [i]. *)
Definition chunk_at (mediaData : Buffer) (i : N) : Buffer :=
  let start := (i * CHUNK_SIZE)%N in
  let end_ := N.min (start + CHUNK_SIZE) (buf_length mediaData) in
  Buffer_slice mediaData start end_.

Definition chunk_error (i chunks : N) : JsError :=
  Error ("Failed to append media chunk "
           +:+ pretty (i + 1)%N +:+ "/" +:+ pretty chunks).

(** The [for (let i = 0; i < chunks; i++)] loop; [todo] is the number of
    iterations left, [chunks - i]. *)
Fixpoint append_chunks (todo : nat) (mediaData : Buffer) (mediaId : string)
    (chunks i : N) : M unit :=
  match todo with
  | O => ret tt
  | S todo' =>
      let chunk := chunk_at mediaData i in
      let* appendResponse := requestApi (MediaAppend mediaId i chunk) in
      match appendResponse with
      | Failure _ => throw (chunk_error i chunks)
      | Success _ => append_chunks todo' mediaData mediaId chunks (i + 1)%N
      end
  end.

(** [uploadMedia]; its [catch] logs and rethrows.  Nothing guards the
    property reads on [initResponse.value] and [finalizeResponse.value]. *)
Definition uploadMedia (mediaData : Buffer) (mediaType : MediaType)
    : M MediaUploadResponse :=
  let totalBytes := buf_length mediaData in
  let isVideo := match mediaType with video_mp4 => true | _ => false end in
  let mediaCategory := if isVideo then "tweet_video" else "tweet_image" in
  let* initResponse :=
    requestApi (MediaInit totalBytes mediaType mediaCategory) in
  let* mediaId :=
    match initResponse with
    | Failure _ => throw (Error "Failed to initialize media upload")
    | Success v =>
        if body_is_nullish v then throw (TypeError "media_id_string")
        else
          let id := media_id_string (asMediaUploadResponse v) in
          match id with
          | Some mediaId =>
              if truthy_str id then ret mediaId
              else throw (Error "Failed to initialize media upload")
          | None => throw (Error "Failed to initialize media upload")
          end
    end in
  let chunks :=
    if isVideo then Math_ceil_div totalBytes CHUNK_SIZE else 1%N in
  let* _ := append_chunks (N.to_nat chunks) mediaData mediaId chunks 0 in
  let* finalizeResponse := requestApi (MediaFinalize mediaId) in
  match finalizeResponse with
  | Failure _ => throw (Error "Failed to finalize media upload")
  | Success v =>
      if isVideo then
        if body_is_nullish v then throw (TypeError "processing_info")
        else
          let value := asMediaUploadResponse v in
          if bool_decide (is_Some (processing_info value))
          then checkMediaProcessingStatus mediaId
          else ret value
      else ret (asMediaUploadResponse v)
  end.

(** ** Session: construction, login, cookies *)

(** [bearerToken] of [api.ts]. *)
Variable bearerToken : string.

(** [TwitterUserAuth.login] ([auth-user.ts]): the negotiation works on the
    authorizer it is called on and talks to the remote service; it ends
    normally or throws. *)
Variable userAuth_login :
  Credentials → AuthObject → Remote → option JsError * AuthObject * Remote.

(** [document.location.toString()] where a [document] exists. *)
Variable document_location : option string.

(** Which cookies of a jar a URL sees. *)
Variable cookie_matches : string → Cookie → bool.

(** [Cookie.parse] for cookies given as cookie-lines. *)
Variable Cookie_parse : string → option Cookie.

(** [jar.setCookie(cookie, url)] refuses a cookie that does not belong to
    the URL (another domain, a public suffix, ...) and throws; which ones,
    and with which error, is the library's business. *)
Variable jar_refuses : Cookie → string → option JsError.

(** Modelled from the spec: [jar.getCookies(url)] exports the cookies the
    URL sees as a sequence of records. *)
Definition CookieJar_getCookies (jar : CookieJar) (url : string)
    : list Cookie :=
  cookie_of <$>
    map_to_list (filter (λ kd, cookie_matches url (cookie_of kd) = true) jar).

Definition useGuestAuth : M unit :=
  let* sc := get_this in
  let* a := alloc (TwitterGuestAuth_new (token sc)) in
  let* b := alloc (TwitterGuestAuth_new (token sc)) in
  set_this {| auth := a; authTrends := b; token := token sc |}.

(** [new Scraper()], run on the object under construction. *)
Definition Scraper_constructor : M unit :=
  let* sc := get_this in
  let* _ := set_this {| auth := auth sc; authTrends := authTrends sc;
                        token := bearerToken |} in
  useGuestAuth.

Definition TwitterUserAuth_login (l : nat) (c : Credentials) : M unit := λ s,
  match heap s !! l with
  | None => (Threw (Error "TypeError: reference is undefined"), s)
  | Some o =>
      let '(r, o', rem') := userAuth_login c o (remote s) in
      let s' := {| this := this s; heap := <[l := o']> (heap s);
                   remote := rem'; trace := trace s |} in
      match r with
      | Some e => (Threw e, s')
      | None => (Returned tt, s')
      end
  end.

Definition login (c : Credentials) : M unit :=
  let* sc := get_this in
  let* userAuth := alloc (TwitterUserAuth_new (token sc)) in
  let* _ := TwitterUserAuth_login userAuth c in
  let* sc := get_this in
  set_this {| auth := userAuth; authTrends := userAuth; token := token sc |}.

Definition isLoggedIn : M bool :=
  let* sc := get_this in
  let* a := deref (auth sc) in
  if Auth_isLoggedIn a then
    let* b := deref (authTrends sc) in
    ret (Auth_isLoggedIn b)
  else ret false.

Definition getCookies : M (list Cookie) :=
  let* sc := get_this in
  let* a := deref (authTrends sc) in
  ret (CookieJar_getCookies (auth_jar a)
         (match document_location with
          | Some location => location
          | None => twUrl
          end)).

(** [userAuth.cookieJar().setCookie(cookie, url)]: a cookie-line is
    parsed first, and one that does not parse is refused; so is a cookie
    the jar does not accept for the URL. *)
Definition cookieJar_setCookie (l : nat) (cookie : string + Cookie)
    (url : string) : M unit :=
  let* a := deref l in
  let parsed :=
    match cookie with
    | inl line => Cookie_parse line
    | inr c => Some c
    end in
  match parsed with
  | None => throw (Error "Cookie failed to parse")
  | Some c =>
      match jar_refuses c url with
      | Some e => throw e
      | None =>
          store l {| auth_class := auth_class a;
                     auth_bearer := auth_bearer a;
                     auth_jar := CookieJar_setCookie (auth_jar a) c |}
      end
  end.

Fixpoint setCookies_each (userAuth : nat) (cookies : list (string + Cookie))
    : M unit :=
  match cookies with
  | [] => ret tt
  | cookie :: rest =>
      let* _ := cookieJar_setCookie userAuth cookie twUrl in
      setCookies_each userAuth rest
  end.

Definition setCookies (cookies : list (string + Cookie)) : M unit :=
  let* sc := get_this in
  let* userAuth := alloc (TwitterUserAuth_new (token sc)) in
  let* _ := setCookies_each userAuth cookies in
  let* sc := get_this in
  set_this {| auth := userAuth; authTrends := userAuth; token := token sc |}.

(** ** Observations on traces *)

Definition add_events (evs : list Event) (s : St) : St :=
  {| this := this s; heap := heap s; remote := remote s;
     trace := trace s ++ evs |}.

Definition yielded (tr : list Event) : list Tweet :=
  omap (λ ev, match ev with Yielded t => Some t | _ => None end) tr.

Definition requests (tr : list Event) : list Request :=
  omap (λ ev, match ev with Requested req _ => Some req | _ => None end) tr.

Definition waits (tr : list Event) : list Z :=
  omap (λ ev, match ev with Slept ms => Some ms | _ => None end) tr.

(** The tweet lists of the timeline pages that were fetched. *)
Definition fetched_pages (tr : list Event) : list (list Tweet) :=
  omap (λ ev, match ev with
              | Requested (UserTweets _ _ _) (Success v) =>
                  Some (tweets (parseTimelineTweetsV2 v))
              | _ => None
              end) tr.

Definition is_UserTweets (req : Request) : bool :=
  match req with UserTweets _ _ _ => true | _ => false end.

(** How often a tweet with identifier [id] occurs in a list. *)
Definition count_id (id : string) (ts : list Tweet) : nat :=
  length (filter (λ t, tweet_id t = Some id) ts).

(** The timeline of [userId] runs out of pages.  A fetch is determined by
    the cursor it is asked with and the state of the remote service;
    [reach] holds of the pairs a run can come by and is kept by every
    fetch, and every page that still carries a cursor brings the pair
    closer, by [rank], to the last page.  Whether the service keeps the
    position itself or reads it off the cursor makes no difference. *)
Definition exhausts (userId : string)
    (reach : option string → Remote → Prop)
    (rank : option string → Remote → nat) : Prop :=
  ∀ count cursor rem v rem',
    reach cursor rem →
    respond (UserTweets userId count cursor) rem = (Success v, rem') →
    truthy_str (next (parseTimelineTweetsV2 v)) = true →
    reach (next (parseTimelineTweetsV2 v)) rem' ∧
    rank (next (parseTimelineTweetsV2 v)) rem' < rank cursor rem.

(** Every timeline page carries at least one tweet. *)
Definition pages_nonempty : Prop :=
  ∀ req rem v rem',
    is_UserTweets req = true →
    respond req rem = (Success v, rem') →
    tweets (parseTimelineTweetsV2 v) ≠ [].

(** The event is not a fetch that failed or that came without a cursor. *)
Definition carries_cursor (ev : Event) : bool :=
  match ev with
  | Requested _ (Success v) => truthy_str (next (parseTimelineTweetsV2 v))
  | Requested _ (Failure _) => false
  | _ => true
  end.

(** The cursors of the fetched timeline pages. *)
Definition fetched_cursors (tr : list Event) : list (option string) :=
  omap (λ ev, match ev with
              | Requested (UserTweets _ _ _) (Success v) =>
                  Some (next (parseTimelineTweetsV2 v))
              | _ => None
              end) tr.

(** The [command] of a media request. *)
Definition command (req : Request) : option string :=
  match req with
  | MediaInit _ _ _ => Some "INIT"
  | MediaAppend _ _ _ => Some "APPEND"
  | MediaFinalize _ => Some "FINALIZE"
  | MediaStatus _ => Some "STATUS"
  | _ => None
  end.

Definition commands (tr : list Event) : list string :=
  omap command (requests tr).

(** Segment index and payload length of each APPEND. *)
Definition append_segments (tr : list Event) : list (N * N) :=
  omap (λ req, match req with
               | MediaAppend _ i media => Some (i, buf_length media)
               | _ => None
               end) (requests tr).

(** The [total_bytes] each INIT declared. *)
Definition declared_bytes (tr : list Event) : list N :=
  omap (λ req, match req with
               | MediaInit n _ _ => Some n
               | _ => None
               end) (requests tr).

Definition results (tr : list Event) : list (RequestApiResult Body) :=
  omap (λ ev, match ev with Requested _ res => Some res | _ => None end) tr.

Definition succeeded (res : RequestApiResult Body) : bool :=
  match res with Success _ => true | Failure _ => false end.

(** The APPEND requests for the [count] chunks from index [from] on. *)
Definition append_requests (mediaData : Buffer) (mediaId : string)
    (from : N) (count : nat) : list Request :=
  (λ j, let i := (from + N.of_nat j)%N in
        MediaAppend mediaId i (chunk_at mediaData i)) <$> seq 0 count.

(** A status response that asks to poll again. *)
Definition pending (res : RequestApiResult Body) : bool :=
  match res with
  | Success v =>
      if body_is_nullish v then false
      else
        match processing_info (asMediaUploadResponse v) with
        | Some info =>
            negb (bool_decide (state info = "succeeded"))
            && negb (bool_decide (state info = "failed"))
        | None => false
        end
  | Failure _ => false
  end.

(** The wait, in milliseconds, a status response asks for. *)
Definition wait_for (res : RequestApiResult Body) : Z :=
  match res with
  | Success v =>
      match processing_info (asMediaUploadResponse v) with
      | Some info => (or_default (check_after_secs info) 5 * 1000)%Z
      | None => 0%Z
      end
  | Failure _ => 0%Z
  end.

(** How the poll ends, given the last status response. *)
Definition poll_verdict (last_res : RequestApiResult Body)
    : Outcome MediaUploadResponse :=
  match last_res with
  | Failure _ => Threw (Error "Failed to check media processing status")
  | Success v =>
      if body_is_nullish v then Threw (TypeError "processing_info")
      else
        let value := asMediaUploadResponse v in
        match processing_info value with
        | None => Returned value
        | Some info =>
            if bool_decide (state info = "succeeded") then Returned value
            else if bool_decide (state info = "failed")
            then Threw (Error "Video processing failed")
            else Threw (Error "Video processing timed out")
        end
  end.

(** The three ways the poll is said to end. *)
Definition three_outcomes (o : Outcome MediaUploadResponse) : Prop :=
  (∃ r, o = Returned r)
  ∨ o = Threw (Error "Video processing failed")
  ∨ o = Threw (Error "Video processing timed out").

(** The five ways it ends. *)
Definition five_outcomes (o : Outcome MediaUploadResponse) : Prop :=
  three_outcomes o
  ∨ o = Threw (Error "Failed to check media processing status")
  ∨ o = Threw (TypeError "processing_info").

(** The events of a poll of at most [budget] requests and the outcome it
    ends in: every response but the last asks to poll again and is
    followed by its wait; the last one decides. *)
Definition polled (mediaId : string) (budget : nat) (evs : list Event)
    (o : Outcome MediaUploadResponse) : Prop :=
  ∃ earlier last,
    results evs = earlier ++ [last] ∧
    requests evs = replicate (S (length earlier)) (MediaStatus mediaId) ∧
    S (length earlier) ≤ budget ∧
    forallb pending earlier = true ∧
    (pending last = true → S (length earlier) = budget) ∧
    waits evs
    = wait_for <$> filter (λ r, pending r = true) (earlier ++ [last]) ∧
    o = poll_verdict last.

Definition poll_run (mediaId : string) (budget : nat) (s : St)
    (run : Outcome MediaUploadResponse * St) : Prop :=
  ∃ evs, trace run.2 = trace s ++ evs ∧ polled mediaId budget evs run.1.

(** What the APPEND loop leaves behind when [todo] chunks are due from
    index [from] on: one APPEND per chunk in index order, up to and
    including the first that fails. *)
Definition append_run (mediaData : Buffer) (mediaId : string) (chunks : N)
    (from : N) (todo : nat) (s : St) (run : Outcome unit * St) : Prop :=
  ∃ ress,
    trace run.2
    = trace s ++ zip_with Requested
                   (append_requests mediaData mediaId from (length ress))
                   ress ∧
    ((run.1 = Returned tt ∧ length ress = todo ∧
      forallb succeeded ress = true)
     ∨ (∃ oks err,
          ress = oks ++ [Failure err] ∧
          forallb succeeded oks = true ∧
          length oks < todo ∧
          run.1 = Threw (chunk_error (from + N.of_nat (length oks)) chunks))).

(** What the answer to INIT makes of the upload: the media id the
    following requests carry, or the error the upload ends with. *)
Definition init_verdict (res : RequestApiResult Body) : JsError + string :=
  match res with
  | Failure _ => inl (Error "Failed to initialize media upload")
  | Success v =>
      if body_is_nullish v then inl (TypeError "media_id_string")
      else
        match media_id_string (asMediaUploadResponse v) with
        | Some mediaId =>
            if truthy_str (Some mediaId) then inr mediaId
            else inl (Error "Failed to initialize media upload")
        | None => inl (Error "Failed to initialize media upload")
        end
  end.

(** How the upload ends on the answer to FINALIZE; [None] when the answer
    sends a video to the status poll. *)
Definition finalize_verdict (mediaType : MediaType)
    (res : RequestApiResult Body) : option (Outcome MediaUploadResponse) :=
  match res with
  | Failure _ => Some (Threw (Error "Failed to finalize media upload"))
  | Success v =>
      match mediaType with
      | image_jpeg => Some (Returned (asMediaUploadResponse v))
      | video_mp4 =>
          if body_is_nullish v then Some (Threw (TypeError "processing_info"))
          else
            match processing_info (asMediaUploadResponse v) with
            | Some _ => None
            | None => Some (Returned (asMediaUploadResponse v))
            end
      end
  end.

(** The phases of an upload, read off the events it adds to the trace.
    [chunks] is the number of chunks the loop is set up for.  INIT is
    always sent, and first.  If its answer gives no media id, nothing
    follows.  Otherwise the APPENDs follow in index order: either one of
    them fails, after fewer than [chunks] successful ones, and is the last
    event; or all [chunks] succeed and FINALIZE follows, and after it, if
    its answer asks for it, the status poll. *)
Definition upload_phases (mediaData : Buffer) (mediaType : MediaType)
    (category : string) (chunks : N) (s : St)
    (run : Outcome MediaUploadResponse * St) : Prop :=
  let init := MediaInit (buf_length mediaData) mediaType category in
  ∃ res0 evs,
    trace run.2 = trace s ++ Requested init res0 :: evs ∧
    match init_verdict res0 with
    | inl e => evs = [] ∧ run.1 = Threw e
    | inr mediaId =>
        (∃ oks err,
           length oks < N.to_nat chunks ∧
           forallb succeeded oks = true ∧
           evs = zip_with Requested
                   (append_requests mediaData mediaId 0 (S (length oks)))
                   (oks ++ [Failure err]) ∧
           run.1 = Threw (chunk_error (N.of_nat (length oks)) chunks))
        ∨ (∃ oks fin polls,
             length oks = N.to_nat chunks ∧
             forallb succeeded oks = true ∧
             evs = zip_with Requested
                     (append_requests mediaData mediaId 0 (N.to_nat chunks))
                     oks
                   ++ Requested (MediaFinalize mediaId) fin :: polls ∧
             match finalize_verdict mediaType fin with
             | Some o => polls = [] ∧ run.1 = o
             | None => polled mediaId maxAttempts polls run.1
             end)
    end.

(** The tweets of a threaded conversation, flattened; a falsy body has
    none. *)
Definition flattened (v : Body) : list Tweet :=
  if body_is_falsy v then [] else parseThreadedConversation v.

(** Both authorizer references of the scraper point to live objects. *)
Definition scraper_wf (s : St) : Prop :=
  is_Some (heap s !! auth (this s)) ∧
  is_Some (heap s !! authTrends (this s)).

(** The number of payload bytes a list of requests carries in its
    APPENDs. *)
Definition payload_bytes (reqs : list Request) : N :=
  foldr (λ req acc,
           match req with
           | MediaAppend _ _ media => (buf_length media + acc)%N
           | _ => acc
           end) 0%N reqs.

End Model.

Arguments St {Body Remote}.
Arguments M {Body Remote} A.
Arguments polled {Body _} mediaId budget evs o : simpl never.
Arguments poll_run {Body _ Remote} mediaId budget s run : simpl never.
Arguments append_run {Body Remote} mediaData mediaId chunks from todo s run
  : simpl never.
Arguments upload_phases {Body _ Remote} mediaData mediaType category chunks
  s run : simpl never.

(** ** Further operations and observations *)

(** [getLatestTweet(user, includeRetweets, max, auth)]; [timeline] lists
    what the generator [getTweets(user, max, auth)] produces, in order.
    With [max === 1] the first entry is taken as it comes. *)
Definition getLatestTweet (timeline : list Tweet) (includeRetweets : bool)
    (max : nat) : Outcome (option Tweet) :=
  if max =? 1 then Returned (head timeline)
  else getTweetWhere timeline
         (ByFields {[ "isRetweet" := JsBool includeRetweets ]}).

(** A query that involves no promise. *)
Definition synchronous (query : TweetQuery) : Prop :=
  match query with
  | ByFields _ => True
  | ByPredicate f => ∀ t, ∃ b, f t = Plain b
  end.

(** The command line of [command.ts], as its sequence of characters. *)
Definition quote_char : ascii := "034"%char.

Definition space_char : ascii := " "%char.

(** The [for] loop of [parseCommandLine] from the current character on,
    with its three variables. *)
Fixpoint parse_from (commandLine : list ascii) (args : list (list ascii))
    (currentArg : list ascii) (inQuotes : bool) : list (list ascii) :=
  match commandLine with
  | [] =>
      match currentArg with
      | [] => args
      | _ => args ++ [currentArg]
      end
  | char :: rest =>
      if bool_decide (char = quote_char)
      then parse_from rest args currentArg (negb inQuotes)
      else if bool_decide (char = space_char) && negb inQuotes
      then
        match currentArg with
        | [] => parse_from rest args currentArg inQuotes
        | _ => parse_from rest (args ++ [currentArg]) [] inQuotes
        end
      else parse_from rest args (currentArg ++ [char]) inQuotes
  end.

Definition parseCommandLine (commandLine : list ascii)
    : list (list ascii) :=
  parse_from commandLine [] [] false.

(** [words.join(' ')] *)
Fixpoint join_spaces (words : list (list ascii)) : list ascii :=
  match words with
  | [] => []
  | [w] => w
  | w :: rest => w ++ space_char :: join_spaces rest
  end.

Definition quoted (w : list ascii) : list ascii :=
  quote_char :: w ++ [quote_char].

(** An argument as a user writes it: between quotes when it holds a
    space. *)
Definition written (w : list ascii) : list ascii :=
  if bool_decide (space_char ∈ w) then quoted w else w.

(** An argument that can be passed at all: not empty and free of quote
    characters. *)
Definition passable (w : list ascii) : Prop :=
  w ≠ [] ∧ quote_char ∉ w.

Section Further.
Context {Body : Type} `{!ResponseBody Body} {Remote : Type}.
Variable respond : Request → Remote → RequestApiResult Body * Remote.

(** The cursor [getUserTweets] puts into the request. *)
Definition cursor_variable (cursor : option string) : option string :=
  if truthy_str cursor then cursor else None.

(** The request of the loop body when [r] tweets were retrieved. *)
Definition page_request (userId : string) (maxTweets r : nat)
    (cursor : option string) : Request :=
  UserTweets userId (200 `min` (maxTweets - r)) (cursor_variable cursor).

(** The traces the pager can add, with the outcome they end in, from a
    count [r] and a cursor on. *)
Inductive paged (userId : string) (maxTweets : nat)
    : nat → option string → list (@Event Body) → Outcome unit → Prop :=
| paged_done r c :
    maxTweets ≤ r → paged userId maxTweets r c [] (Returned tt)
| paged_starved r c :
    r < maxTweets → paged userId maxTweets r c [] OutOfFuel
| paged_failed r c err :
    r < maxTweets →
    paged userId maxTweets r c
      [Requested (page_request userId maxTweets r c) (Failure err)]
      (Threw err)
| paged_last r c v :
    r < maxTweets →
    truthy_str (next (parseTimelineTweetsV2 v)) = false →
    paged userId maxTweets r c
      (Requested (page_request userId maxTweets r c) (Success v)
         :: (Yielded <$>
               take (maxTweets - r) (tweets (parseTimelineTweetsV2 v))))
      (Returned tt)
| paged_more r c v evs o :
    r < maxTweets →
    truthy_str (next (parseTimelineTweetsV2 v)) = true →
    paged userId maxTweets
      (r + length (take (maxTweets - r)
                     (tweets (parseTimelineTweetsV2 v))))
      (next (parseTimelineTweetsV2 v)) evs o →
    paged userId maxTweets r c
      (Requested (page_request userId maxTweets r c) (Success v)
         :: (Yielded <$>
               take (maxTweets - r) (tweets (parseTimelineTweetsV2 v)))
         ++ evs)
      o.

(** Every page is empty and comes with a cursor. *)
Definition empty_pages_with_cursor : Prop :=
  ∀ req rem, ∃ v rem',
    respond req rem = (Success v, rem') ∧
    tweets (parseTimelineTweetsV2 v) = [] ∧
    truthy_str (next (parseTimelineTweetsV2 v)) = true.

(** The errors [uploadMedia] raises itself. *)
Definition upload_error (chunks : N) (e : JsError) : Prop :=
  e = Error "Failed to initialize media upload"
  ∨ (∃ j, (j < chunks)%N ∧ e = chunk_error j chunks)
  ∨ e = Error "Failed to finalize media upload"
  ∨ e = Error "Failed to check media processing status"
  ∨ e = Error "Video processing failed"
  ∨ e = Error "Video processing timed out".

(** [TwitterAuth.logout] ([auth.ts], [auth-user.ts]): works on the
    authorizer it is called on and talks to the remote service; it ends
    normally or throws. *)
Variable auth_logout :
  AuthObject → Remote → option JsError * AuthObject * Remote.

Definition TwitterAuth_logout (l : nat) : @M Body Remote unit := λ s,
  match heap s !! l with
  | None => (Threw (Error "TypeError: reference is undefined"), s)
  | Some o =>
      let '(r, o', rem') := auth_logout o (remote s) in
      let s' := {| this := this s; heap := <[l := o']> (heap s);
                   remote := rem'; trace := trace s |} in
      match r with
      | Some e => (Threw e, s')
      | None => (Returned tt, s')
      end
  end.

Definition logout : @M Body Remote unit :=
  bind get_this (λ sc,
  bind (TwitterAuth_logout (auth sc)) (λ _,
  bind get_this (λ sc,
  bind (TwitterAuth_logout (authTrends sc)) (λ _,
  useGuestAuth)))).

(** Modelled from the spec: [jar.removeAllCookies()] leaves the store
    empty. *)
Definition cookieJar_removeAllCookies (l : nat) : @M Body Remote unit :=
  bind (deref l) (λ a,
  store l {| auth_class := auth_class a; auth_bearer := auth_bearer a;
             auth_jar := ∅ |}).

Definition clearCookies : @M Body Remote unit :=
  bind get_this (λ sc,
  bind (cookieJar_removeAllCookies (auth sc)) (λ _,
  bind get_this (λ sc,
  cookieJar_removeAllCookies (authTrends sc)))).

End Further.

(** ** Example services *)

Inductive ExBody :=
| ExPage (p : QueryTweetsResponse)
| ExMedia (m : MediaUploadResponse)
| ExConversation (ts : list Tweet)
| ExNull.

Definition no_media : MediaUploadResponse :=
  {| media_id_string := None; processing_info := None |}.

#[global] Instance ExBody_ResponseBody : ResponseBody ExBody := {|
  asMediaUploadResponse b :=
    match b with ExMedia m => m | _ => no_media end;
  parseTimelineTweetsV2 b :=
    match b with ExPage p => p | _ => {| tweets := []; next := None |} end;
  parseThreadedConversation b :=
    match b with ExConversation ts => ts | _ => [] end;
  body_is_nullish b := match b with ExNull => true | _ => false end;
  body_is_falsy b := match b with ExNull => true | _ => false end;
  tweetResultData b := match b with ExNull => None | _ => Some b end;
  parseTimelineEntryItemContentRaw b id :=
    match b with
    | ExConversation ts =>
        List.find (λ t, strict_eq (prop t "id") (JsString id)) ts
    | _ => None
    end
|}.

Definition mk_tweet (id : string) : Tweet := {[ "id" := JsString id ]}.

Definition ex_scraper : Scraper := {| auth := 0; authTrends := 0; token := "" |}.

Definition ex_state {Remote} (r : Remote) : @St ExBody Remote :=
  {| this := ex_scraper; heap := ∅; remote := r; trace := [] |}.

(** A timeline that serves a fixed list of pages, then empty pages. *)
Definition paged_service (req : Request) (pages : list QueryTweetsResponse)
    : RequestApiResult ExBody * list QueryTweetsResponse :=
  match pages with
  | p :: rest => (Success (ExPage p), rest)
  | [] => (Success (ExPage {| tweets := []; next := None |}), [])
  end.

(** Two consecutive pages sharing the boundary tweet "2". *)
Definition overlapping_pages : list QueryTweetsResponse :=
  [ {| tweets := [mk_tweet "1"; mk_tweet "2"]; next := Some "c1" |};
    {| tweets := [mk_tweet "2"; mk_tweet "3"]; next := None |} ].

(** A timeline that keeps no state and reads the position off the
    cursor: three pages, linked by the cursors "c1" and "c2". *)
Definition cursor_service (req : Request) (u : unit)
    : RequestApiResult ExBody * unit :=
  match req with
  | UserTweets _ _ None =>
      (Success (ExPage {| tweets := [mk_tweet "1"; mk_tweet "2"];
                          next := Some "c1" |}), tt)
  | UserTweets _ _ (Some c) =>
      if bool_decide (c = "c1")
      then (Success (ExPage {| tweets := [mk_tweet "3"; mk_tweet "4"];
                               next := Some "c2" |}), tt)
      else if bool_decide (c = "c2")
      then (Success (ExPage {| tweets := [mk_tweet "5"]; next := None |}),
            tt)
      else (Failure (Error "400"), tt)
  | _ => (Failure (Error "404"), tt)
  end.


(** A timeline that answers every request with one tweet and the same
    cursor. *)
Definition stalled_service (req : Request) (u : unit)
    : RequestApiResult ExBody * unit :=
  (Success (ExPage {| tweets := [mk_tweet "7"]; next := Some "c" |}), tt).

(** A media endpoint that accepts everything: INIT hands out the media
    id "710", FINALIZE announces processing, and STATUS polls are answered
    from a script, then with [in_progress] for ever. *)
Definition in_progress (secs : option Z) : ExBody :=
  ExMedia {| media_id_string := Some "710";
             processing_info :=
               Some {| state := "in_progress"; check_after_secs := secs |} |}.

Definition media_service (req : Request)
    (script : list (RequestApiResult ExBody))
    : RequestApiResult ExBody * list (RequestApiResult ExBody) :=
  match req with
  | MediaInit _ _ _ =>
      (Success (ExMedia {| media_id_string := Some "710";
                           processing_info := None |}), script)
  | MediaAppend _ _ _ => (Success ExNull, script)
  | MediaFinalize _ => (Success (in_progress (Some 1%Z)), script)
  | MediaStatus _ =>
      match script with
      | res :: rest => (res, rest)
      | [] => (Success (in_progress None), [])
      end
  | _ => (Failure (Error "404"), script)
  end.

Definition zero_buffer (n : N) : Buffer :=
  {| buf_length := n; buf_byte := λ _, Byte.x00 |}.

(** A 12 MiB video and an image one byte over 5 MiB. *)
Definition video_12MiB : Buffer := zero_buffer (12 * 1024 * 1024).

Definition image_5MiB_plus_1 : Buffer := zero_buffer (5 * 1024 * 1024 + 1).

(** Sessions: a negotiation that the server aborts with an unknown
    subtask after a first cookie was set, and one that succeeds. *)
Definition ex_cookie (name value : string) : Cookie :=
  {| c_name := name; c_value := value; c_domain := "twitter.com";
     c_path := "/"; c_secure := true; c_httpOnly := true;
     c_sameSite := "none" |}.

Definition with_cookies (o : AuthObject) (cs : list Cookie) : AuthObject :=
  {| auth_class := auth_class o; auth_bearer := auth_bearer o;
     auth_jar := foldl CookieJar_setCookie (auth_jar o) cs |}.

Definition aborted_negotiation (c : Credentials) (o : AuthObject) (r : unit)
    : option JsError * AuthObject * unit :=
  (Some (Error "Unknown subtask DenyLoginSubtask"),
   with_cookies o [ex_cookie "att" "1"], r).

Definition accepted_negotiation (c : Credentials) (o : AuthObject) (r : unit)
    : option JsError * AuthObject * unit :=
  (None, with_cookies o [ex_cookie "auth_token" "a"; ex_cookie "ct0" "b"], r).

Definition ex_credentials : Credentials :=
  {| username := "user"; password := "secret"; email := None;
     twoFactorSecret := None |}.

(** [new Scraper()] and the same after a successful login. *)
Definition guest_session : @St ExBody unit :=
  (Scraper_constructor "bearer" (ex_state tt)).2.

Definition user_session : @St ExBody unit :=
  (login accepted_negotiation ex_credentials guest_session).2.

(** The authorizer a successful login leaves behind. *)
Definition user_authorizer : AuthObject :=
  with_cookies (TwitterUserAuth_new "bearer")
    [ex_cookie "auth_token" "a"; ex_cookie "ct0" "b"].

(** A conversation of three tweets around the focal tweet "2". *)
Definition conversation_service (req : Request) (u : unit)
    : RequestApiResult ExBody * unit :=
  (Success (ExConversation [mk_tweet "1"; mk_tweet "2"; mk_tweet "3"]), tt).


(** A timeline that answers every request with an empty page and a
    cursor. *)
Definition empty_service (req : Request) (u : unit)
    : RequestApiResult ExBody * unit :=
  (Success (ExPage {| tweets := []; next := Some "c" |}), tt).

(** A plain predicate, and an [async] one whose promise rejects on the
    tweet "2". *)
Definition is_tweet_2 (t : Tweet) : PredicateResult :=
  Plain (strict_eq (prop t "id") (JsString "2")).

Definition rejects_tweet_2 (t : Tweet) : PredicateResult :=
  if strict_eq (prop t "id") (JsString "2")
  then Async (Rejected (Error "lookup failed"))
  else Async (Resolved false).

(** A server-side logout that succeeds and leaves the authorizer with a
    new, empty jar. *)
Definition accepted_logout (o : AuthObject) (r : unit)
    : option JsError * AuthObject * unit :=
  (None,
   {| auth_class := auth_class o; auth_bearer := auth_bearer o;
      auth_jar := ∅ |}, r).

(** Two arguments of the shell, the second with a space, and a line
    without quotes. *)
Definition ex_arguments : list (list ascii) :=
  [String.list_ascii_of_string "tweet";
   String.list_ascii_of_string "hello world"].

Definition ex_line : list ascii :=
  String.list_ascii_of_string "like  1234567890 ".

(** * Properties *)

(** ** Pager *)

Section PagerProperties.
Context {Body : Type} `{!ResponseBody Body} {Remote : Type}.
Variable respond : Request → Remote → RequestApiResult Body * Remote.

Abbreviation State := (@St Body Remote).

Lemma add_events_nil (s : State) : add_events [] s = s.
Proof. destruct s; unfold add_events; simpl. by rewrite app_nil_r. Qed.

Lemma add_events_app (a b : list Event) (s : State) :
  add_events b (add_events a s) = add_events (a ++ b) s.
Proof. unfold add_events; simpl. by rewrite app_assoc. Qed.

Lemma yielded_app (a b : list (@Event Body)) :
  yielded (a ++ b) = yielded a ++ yielded b.
Proof. apply omap_app. Qed.

Lemma fetched_pages_app (a b : list (@Event Body)) :
  fetched_pages (a ++ b) = fetched_pages a ++ fetched_pages b.
Proof. apply omap_app. Qed.

Lemma requests_app (a b : list (@Event Body)) :
  requests (a ++ b) = requests a ++ requests b.
Proof. apply omap_app. Qed.

Lemma yielded_Yielded (ts : list Tweet) :
  yielded (Yielded (Body:=Body) <$> ts) = ts.
Proof. induction ts as [|t ts IH]; simpl; [done | by f_equal]. Qed.

Lemma fetched_pages_Yielded (ts : list Tweet) :
  fetched_pages (Yielded (Body:=Body) <$> ts) = [].
Proof. induction ts as [|t ts IH]; simpl; done. Qed.

Lemma requests_Yielded (ts : list Tweet) :
  requests (Yielded (Body:=Body) <$> ts) = [].
Proof. induction ts as [|t ts IH]; simpl; done. Qed.

(** One page: below the cap, the loop yields the first [maxTweets -
    retrievedTweets] tweets of the page and counts them. *)
Lemma yield_page_run (page : list Tweet) (maxTweets r : nat) (s : State) :
  r < maxTweets →
  yield_page page maxTweets r s =
    (Returned (r + length (take (maxTweets - r) page)),
     add_events (Yielded <$> take (maxTweets - r) page) s).
Proof.
  revert r s. induction page as [|t rest IH]; intros r s Hr.
  - simpl. rewrite take_nil. simpl. by rewrite Nat.add_0_r, add_events_nil.
  - simpl. unfold bind, emit. fold (add_events [Yielded t] s).
    destruct (maxTweets - r) as [|k] eqn:Hk; [exfalso; lia|]. simpl.
    destruct (Nat.leb_spec maxTweets (S r)) as [Hle|Hlt].
    + assert (k = 0) as -> by lia. rewrite take_0.
      unfold ret; simpl. f_equal; try done. f_equal; lia.
    + rewrite IH by lia. replace (maxTweets - S r) with k by lia.
      rewrite add_events_app. simpl. f_equal; try done. f_equal; lia.
Qed.

(** One fetch. *)
Lemma getUserTweets_run (userId : string) (count : nat)
    (cursor : option string) (s : State) :
  ∃ req res rem',
    is_UserTweets req = true ∧
    respond req (remote s) = (res, rem') ∧
    let s' := {| this := this s; heap := heap s; remote := rem';
                 trace := trace s ++ [Requested req res] |} in
    getUserTweets respond userId count cursor s =
      match res with
      | Success v =>
          (Returned {| tweets := tweets (parseTimelineTweetsV2 v);
                       next := next (parseTimelineTweetsV2 v) |}, s')
      | Failure err => (Threw err, s')
      end.
Proof.
  unfold getUserTweets, bind, requestApi.
  match goal with |- context [respond ?r (remote s)] => set (req := r) end.
  destruct (respond req (remote s)) as [res rem'] eqn:Hres.
  exists req, res, rem'. repeat split; [done|].
  destruct res; reflexivity.
Qed.

(** One executed body of the [while] loop. *)
Lemma iterate_pages_step (fuel : nat) (userId : string) (maxTweets : nat)
    (cursor : option string) (r : nat) (s : State) :
  r < maxTweets →
  ∃ req res rem',
    is_UserTweets req = true ∧
    respond req (remote s) = (res, rem') ∧
    let s1 := {| this := this s; heap := heap s; remote := rem';
                 trace := trace s ++ [Requested req res] |} in
    iterate_pages respond (S fuel) userId maxTweets cursor r s =
      match res with
      | Failure err => (Threw err, s1)
      | Success v =>
          let page := parseTimelineTweetsV2 v in
          let out := take (maxTweets - r) (tweets page) in
          let s2 := add_events (Yielded <$> out) s1 in
          if truthy_str (next page)
          then iterate_pages respond fuel userId maxTweets (next page)
                 (r + length out) s2
          else (Returned tt, s2)
      end.
Proof.
  intros Hr.
  destruct (getUserTweets_run userId (maxTweets - r) cursor s)
    as (req & res & rem' & Hreq & Hres & Hrun).
  exists req, res, rem'. split; [done|]. split; [done|].
  simpl. destruct (Nat.ltb_spec r maxTweets) as [_|?]; [|exfalso; lia].
  unfold bind at 1. simpl in Hrun. rewrite Hrun.
  destruct res as [v|err]; [|done].
  unfold bind. simpl. rewrite yield_page_run by done.
  destruct (truthy_str (next (parseTimelineTweetsV2 v))); done.
Qed.

Lemma iterate_pages_done (fuel : nat) (userId : string) (maxTweets : nat)
    (cursor : option string) (r : nat) (s : State) :
  maxTweets ≤ r →
  iterate_pages respond fuel userId maxTweets cursor r s = (Returned tt, s).
Proof.
  intros Hr. destruct fuel; simpl;
    (destruct (Nat.ltb_spec r maxTweets); [exfalso; lia | done]).
Qed.

Lemma fetched_pages_request (req : Request) (v : Body) :
  is_UserTweets req = true →
  fetched_pages [Requested req (Success v)]
  = [tweets (parseTimelineTweetsV2 v)].
Proof. by destruct req. Qed.

(** What a run adds to the trace: the emitted tweets are the first
    [maxTweets - retrievedTweets] tweets of the fetched pages, in order. *)
Lemma iterate_pages_trace (fuel : nat) (userId : string) (maxTweets : nat)
    (cursor : option string) (r : nat) (s : State) :
  r ≤ maxTweets →
  ∃ evs,
    trace (iterate_pages respond fuel userId maxTweets cursor r s).2
    = trace s ++ evs ∧
    yielded evs = take (maxTweets - r) (concat (fetched_pages evs)).
Proof.
  revert cursor r s. induction fuel as [|fuel IH]; intros cursor r s Hr.
  - exists []. rewrite app_nil_r. simpl. rewrite take_nil.
    destruct (r <? maxTweets); done.
  - destruct (Nat.lt_ge_cases r maxTweets) as [Hlt|Hge].
    2:{ rewrite iterate_pages_done by done. exists [].
        rewrite app_nil_r. simpl. by rewrite take_nil. }
    destruct (iterate_pages_step fuel userId maxTweets cursor r s Hlt)
      as (req & res & rem' & Hreq & _ & ->).
    destruct res as [v|err]; simpl.
    2:{ exists [Requested req (Failure err)]. split; [done|].
        destruct req; simpl; by rewrite take_nil. }
    set (page := tweets (parseTimelineTweetsV2 v)).
    set (out := take (maxTweets - r) page).
    assert (length out = (maxTweets - r) `min` length page) as Hout
      by apply length_take.
    destruct (truthy_str (next (parseTimelineTweetsV2 v))).
    + match goal with |- context [iterate_pages _ _ _ _ ?c ?r' ?s'] =>
        destruct (IH c r' s') as (evs & Htr & Hy); [lia|] end.
      exists ([Requested req (Success v)] ++ (Yielded <$> out) ++ evs).
      split.
      * rewrite Htr. simpl. by rewrite <- !app_assoc.
      * rewrite yielded_app, yielded_app, yielded_Yielded.
        rewrite fetched_pages_app, fetched_pages_app, fetched_pages_Yielded.
        rewrite fetched_pages_request by done. simpl.
        rewrite take_app. fold page. fold out. f_equal.
        rewrite Hy. f_equal. lia.
    + exists ([Requested req (Success v)] ++ (Yielded <$> out)).
      split.
      * simpl. by rewrite <- !app_assoc.
      * rewrite yielded_app, yielded_Yielded.
        rewrite fetched_pages_app, fetched_pages_Yielded.
        rewrite fetched_pages_request by done. simpl.
        rewrite !app_nil_r. done.
Qed.

(** One executed body of the [while] loop, with the request it sends. *)
Lemma iterate_pages_body (fuel : nat) (userId : string) (maxTweets : nat)
    (cursor : option string) (r : nat) (s : State) :
  r < maxTweets →
  iterate_pages respond (S fuel) userId maxTweets cursor r s =
    (let req := page_request userId maxTweets r cursor in
     let '(res, rem') := respond req (remote s) in
     let s1 := {| this := this s; heap := heap s; remote := rem';
                  trace := trace s ++ [Requested req res] |} in
     match res with
     | Failure err => (Threw err, s1)
     | Success v =>
         let page := parseTimelineTweetsV2 v in
         let out := take (maxTweets - r) (tweets page) in
         let s2 := add_events (Yielded <$> out) s1 in
         if truthy_str (next page)
         then iterate_pages respond fuel userId maxTweets (next page)
                (r + length out) s2
         else (Returned tt, s2)
     end).
Proof.
  intros Hr. simpl.
  destruct (Nat.ltb_spec r maxTweets) as [_|?]; [|exfalso; lia].
  unfold bind at 1. unfold getUserTweets, bind, requestApi.
  assert ((if 200 <? maxTweets - r then 200 else maxTweets - r)
          = 200 `min` (maxTweets - r)) as ->
    by (destruct (Nat.ltb_spec 200 (maxTweets - r)); lia).
  fold (cursor_variable cursor).
  fold (page_request userId maxTweets r cursor).
  destruct (respond (page_request userId maxTweets r cursor) (remote s))
    as [res rem'].
  destruct res as [v|err]; [|done].
  unfold ret. rewrite yield_page_run by done. simpl.
  destruct (truthy_str (next (parseTimelineTweetsV2 v))); done.
Qed.


Lemma count_id_concat (id : string) (pages : list (list Tweet)) :
  count_id id (concat pages) = sum_list (count_id id <$> pages).
Proof.
  unfold count_id. induction pages as [|p ps IH]; simpl; [done|].
  by rewrite filter_app, length_app, IH.
Qed.

(** With non-empty pages the cap alone ends the run. *)
Lemma iterate_pages_bounded (fuel : nat) (userId : string)
    (maxTweets : nat) (cursor : option string) (r : nat) (s : State) :
  pages_nonempty respond →
  r ≤ maxTweets →
  maxTweets - r ≤ fuel →
  let run := iterate_pages respond fuel userId maxTweets cursor r s in
  run.1 ≠ OutOfFuel ∧
  ∃ evs,
    trace run.2 = trace s ++ evs ∧
    length (requests evs) ≤ maxTweets - r ∧
    (forallb carries_cursor evs = true →
     length (yielded evs) = maxTweets - r).
Proof.
  intros Hne. revert cursor r s.
  induction fuel as [|fuel IH]; intros cursor r s Hr Hfuel run; subst run.
  - rewrite iterate_pages_done by lia. split; [done|].
    exists []. rewrite app_nil_r. simpl. repeat split; lia.
  - destruct (Nat.lt_ge_cases r maxTweets) as [Hlt|Hge].
    2:{ rewrite iterate_pages_done by done. split; [done|].
        exists []. rewrite app_nil_r. simpl. repeat split; lia. }
    destruct (iterate_pages_step fuel userId maxTweets cursor r s Hlt)
      as (req & res & rem' & Hreq & Hres & ->).
    destruct res as [v|err]; simpl.
    2:{ split; [done|]. exists [Requested req (Failure err)].
        simpl. repeat split; [lia | done]. }
    specialize (Hne req (remote s) v rem' Hreq Hres).
    set (page := tweets (parseTimelineTweetsV2 v)) in *.
    set (out := take (maxTweets - r) page).
    assert (length out = (maxTweets - r) `min` length page) as Hout
      by apply length_take.
    assert (0 < length page) as Hpage
      by (destruct page; [done | simpl; lia]).
    destruct (truthy_str (next (parseTimelineTweetsV2 v))) eqn:Hnext.
    + match goal with |- context [iterate_pages _ _ _ _ ?c ?r' ?s'] =>
        destruct (IH c r' s') as (Hfin & evs & Htr & Hreqs & Hall);
          [lia | lia |] end.
      split; [done|].
      exists ([Requested req (Success v)] ++ (Yielded <$> out) ++ evs).
      split; [rewrite Htr; simpl; by rewrite <- !app_assoc|].
      rewrite !requests_app, requests_Yielded, !yielded_app, yielded_Yielded.
      simpl. split; [lia|]. rewrite Hnext. simpl.
      rewrite forallb_app. intros [_ Hevs]%andb_prop.
      rewrite length_app, (Hall Hevs). lia.
    + split; [done|].
      exists ([Requested req (Success v)] ++ (Yielded <$> out)).
      split; [simpl; by rewrite <- !app_assoc|].
      rewrite requests_app, requests_Yielded. simpl.
      split; [lia|]. by rewrite Hnext.
Qed.


(** C4 (amended).  The iterator keeps no set of emitted identifiers: what
    it yields is exactly the first [maxTweets] tweets of the fetched pages
    laid end to end, so when the cap does not cut the run short a tweet
    identifier is yielded once for each of its occurrences on the pages. *)
Theorem getUserTweetsIterator_yields_pages_in_order
    (fuel : nat) (userId : string) (maxTweets : nat) (s : State) :
  ∃ evs,
    trace (getUserTweetsIterator respond fuel userId maxTweets s).2
    = trace s ++ evs ∧
    yielded evs = take maxTweets (concat (fetched_pages evs)) ∧
    ∀ id,
      length (concat (fetched_pages evs)) ≤ maxTweets →
      count_id id (yielded evs)
      = sum_list (count_id id <$> fetched_pages evs).
Proof.
  unfold getUserTweetsIterator.
  destruct (iterate_pages_trace fuel userId maxTweets None 0 s)
    as (evs & Htr & Hy); [lia|].
  rewrite Nat.sub_0_r in Hy.
  exists evs. split; [done|]. split; [done|].
  intros id Hlen. rewrite Hy, take_ge by done. apply count_id_concat.
Qed.

(** C5 (amended).  The iterator never compares cursors.  When every page
    carries at least one tweet the run ends without running out of fuel
    once the fuel reaches the cap, after at most [maxTweets] fetches; and
    as long as every fetch succeeds and comes back with a cursor, changed
    or not, it stops only when [maxTweets] tweets have been yielded. *)
Theorem getUserTweetsIterator_stops_at_cap_only
    (fuel : nat) (userId : string) (maxTweets : nat) (s : State) :
  pages_nonempty respond →
  maxTweets ≤ fuel →
  let run := getUserTweetsIterator respond fuel userId maxTweets s in
  run.1 ≠ OutOfFuel ∧
  ∃ evs,
    trace run.2 = trace s ++ evs ∧
    length (requests evs) ≤ maxTweets ∧
    (forallb carries_cursor evs = true → length (yielded evs) = maxTweets).
Proof.
  intros Hne Hfuel. unfold getUserTweetsIterator.
  pose proof (iterate_pages_bounded fuel userId maxTweets None 0 s Hne)
    as H.
  rewrite Nat.sub_0_r in H. apply H; lia.
Qed.

End PagerProperties.

(** ** Media uploader *)

Section UploadProperties.
Context {Body : Type} `{!ResponseBody Body} {Remote : Type}.
Variable respond : Request → Remote → RequestApiResult Body * Remote.

Abbreviation UState := (@St Body Remote).

Lemma waits_app (a b : list (@Event Body)) :
  waits (a ++ b) = waits a ++ waits b.
Proof. apply omap_app. Qed.

Lemma results_app (a b : list (@Event Body)) :
  results (a ++ b) = results a ++ results b.
Proof. apply omap_app. Qed.

(** Requests paired with their answers. *)
Lemma requests_zip (reqs : list Request) (ress : list (RequestApiResult Body)) :
  length reqs = length ress →
  requests (zip_with Requested reqs ress) = reqs.
Proof.
  revert ress. induction reqs as [|req reqs IH]; intros [|res ress] Hlen;
    try done. simpl in *. f_equal. apply IH. lia.
Qed.

Lemma results_zip (reqs : list Request) (ress : list (RequestApiResult Body)) :
  length reqs = length ress →
  results (zip_with Requested reqs ress) = ress.
Proof.
  revert ress. induction reqs as [|req reqs IH]; intros [|res ress] Hlen;
    try done. simpl in *. f_equal. apply IH. lia.
Qed.

Lemma length_append_requests (mediaData : Buffer) (mediaId : string)
    (from : N) (n : nat) :
  length (append_requests mediaData mediaId from n) = n.
Proof. unfold append_requests. by rewrite length_fmap, length_seq. Qed.

Lemma poll_status_timeout (fuel : nat) (mediaId : string) (attempts : nat)
    (s : UState) :
  maxAttempts ≤ attempts →
  poll_status respond fuel mediaId attempts s
  = (Threw (Error "Video processing timed out"), s).
Proof.
  intros Hge. destruct fuel; simpl;
    (destruct (Nat.ltb_spec attempts maxAttempts); [exfalso; lia | done]).
Qed.

Lemma polled_single (mediaId : string) (budget : nat)
    (res : RequestApiResult Body) :
  0 < budget →
  pending res = false →
  polled mediaId budget [Requested (MediaStatus mediaId) res]
    (poll_verdict res).
Proof.
  intros Hb Hpend. exists [], res. simpl.
  rewrite filter_cons, filter_nil, decide_False by congruence.
  repeat split; try done; try lia. congruence.
Qed.

(** The poll loop, from [attempts] on. *)
Lemma poll_status_run (fuel : nat) (mediaId : string) (attempts : nat)
    (s : UState) :
  attempts < maxAttempts →
  maxAttempts - attempts ≤ fuel →
  poll_run mediaId (maxAttempts - attempts) s
    (poll_status respond fuel mediaId attempts s).
Proof.
  revert attempts s.
  induction fuel as [|fuel IH]; intros attempts s Hlt Hfuel;
    [exfalso; lia|].
  simpl. destruct (Nat.ltb_spec attempts maxAttempts) as [_|?];
    [|exfalso; lia].
  unfold bind at 1. unfold requestApi.
  destruct (respond (MediaStatus mediaId) (remote s)) as [res rem'] eqn:Hres.
  set (ev := Requested (MediaStatus mediaId) res).
  set (s1 := {| this := this s; heap := heap s; remote := rem';
                trace := trace s ++ [ev] |}).
  assert (∀ o, pending res = false → o = poll_verdict res →
            poll_run mediaId (maxAttempts - attempts) s (o, s1)) as Hlast.
  { intros o Hp ->. exists [ev]. split; [done|].
    apply polled_single; [lia | done]. }
  destruct res as [v|err]; [|by apply Hlast].
  destruct (body_is_nullish v) eqn:Hnull.
  { apply Hlast; unfold pending, poll_verdict; by rewrite Hnull. }
  destruct (processing_info (asMediaUploadResponse v))
    as [info|] eqn:Hinfo.
  2:{ apply Hlast; unfold pending, poll_verdict; by rewrite Hnull, Hinfo. }
  destruct (bool_decide (state info = "succeeded")) eqn:Hs.
  { apply Hlast; unfold pending, poll_verdict; by rewrite Hnull, Hinfo, Hs. }
  destruct (bool_decide (state info = "failed")) eqn:Hf.
  { apply Hlast; unfold pending, poll_verdict;
      by rewrite Hnull, Hinfo, Hs, Hf. }
  clear Hlast.
  assert (pending (Success v) = true) as Hpend
    by (unfold pending; by rewrite Hnull, Hinfo, Hs, Hf).
  set (w := (or_default (check_after_secs info) 5 * 1000)%Z).
  assert (wait_for (Success v) = w) as Hwait
    by (unfold wait_for; by rewrite Hinfo).
  unfold bind, emit. cbn [fst snd this heap remote trace].
  destruct (Nat.lt_ge_cases (attempts + 1) maxAttempts) as [Hmore|Hend].
  - match goal with |- context [poll_status _ _ _ _ ?s'] =>
      pose proof (IH (attempts + 1) s' Hmore ltac:(lia)) as Hrec;
      destruct (poll_status respond fuel mediaId (attempts + 1) s')
        as [o2 s2] end.
    destruct Hrec as (evs & Htr & earlier & last & Hres' & Hreq & Hlen
                      & Hall & Hfull & Hw & Ho).
    cbn [fst snd trace] in Htr, Ho. subst o2.
    exists ([ev; Slept w] ++ evs). split.
    { cbn [fst snd]. rewrite Htr. subst s1. cbn [trace].
      by rewrite <- !app_assoc. }
    exists (Success v :: earlier), last. cbn [fst].
    rewrite results_app, requests_app, waits_app, Hres', Hreq, Hw.
    change (forallb pending (Success v :: earlier))
      with (pending (Success v) && forallb pending earlier).
    rewrite Hpend, Hall.
    change ((Success v :: earlier) ++ [last])
      with (Success v :: (earlier ++ [last])).
    rewrite (filter_cons _ (Success v)), decide_True by done.
    rewrite fmap_cons, Hwait. simpl.
    repeat split; try done; try lia. intros Hp. specialize (Hfull Hp). lia.
  - rewrite poll_status_timeout by done.
    exists [ev; Slept w]. split.
    { subst s1. cbn [fst snd trace]. by rewrite <- !app_assoc. }
    exists [], (Success v). simpl.
    rewrite filter_cons, filter_nil, decide_True by done.
    rewrite fmap_cons, Hwait.
    repeat split; try done; try lia.
    unfold poll_verdict. by rewrite Hnull, Hinfo, Hs, Hf.
Qed.

Lemma poll_verdict_five (res : RequestApiResult Body) :
  five_outcomes (poll_verdict res).
Proof.
  unfold five_outcomes, three_outcomes, poll_verdict.
  destruct res as [v|err]; [|right; by left].
  destruct (body_is_nullish v); [right; by right|].
  destruct (processing_info (asMediaUploadResponse v)) as [info|];
    [|left; left; eauto].
  destruct (bool_decide _); [left; left; eauto|].
  destruct (bool_decide _); [left; right; by left | left; right; by right].
Qed.

(** C7 (amended).  [checkMediaProcessingStatus] never runs out of fuel and
    sends between one and ten STATUS requests and nothing else.  Every
    response but the last asks to poll again; each response that asks to
    poll again, the tenth included, is followed by a wait of
    [check_after_secs] seconds, or of 5 seconds when that is absent or 0.
    The last response decides among five outcomes: the response is
    returned (no descriptor, or state [succeeded]); the failed-state
    error; the timeout error, after exactly ten requests; the error for a
    STATUS request that itself failed; or the [TypeError] of reading
    [processing_info] from a successful response whose body is null. *)
Theorem checkMediaProcessingStatus_bounded (mediaId : string) (s : UState) :
  let run := checkMediaProcessingStatus respond mediaId s in
  run.1 ≠ OutOfFuel ∧
  five_outcomes run.1 ∧
  ∃ evs earlier last,
    trace run.2 = trace s ++ evs ∧
    results evs = earlier ++ [last] ∧
    requests evs = replicate (S (length earlier)) (MediaStatus mediaId) ∧
    S (length earlier) ≤ 10 ∧
    forallb pending earlier = true ∧
    (pending last = true → S (length earlier) = 10) ∧
    waits evs
    = wait_for <$> filter (λ r, pending r = true) (earlier ++ [last]) ∧
    run.1 = poll_verdict last.
Proof.
  intros run. subst run. unfold checkMediaProcessingStatus.
  destruct (poll_status_run maxAttempts mediaId 0 s)
    as (evs & Htr & earlier & last & Hres & Hreq & Hlen & Hall & Hfull
        & Hw & Ho); [unfold maxAttempts; lia | lia |].
  rewrite Ho. split.
  { pose proof (poll_verdict_five last) as [[[r ->]|[-> | ->]]|[-> | ->]];
      done. }
  split; [apply poll_verdict_five|].
  exists evs, earlier, last. unfold maxAttempts in *.
  repeat split; try done; try lia;
    try (intros Hp; specialize (Hfull Hp); lia).
Qed.

Lemma append_requests_S (mediaData : Buffer) (mediaId : string) (from : N)
    (n : nat) :
  append_requests mediaData mediaId from (S n)
  = MediaAppend mediaId from (chunk_at mediaData from)
    :: append_requests mediaData mediaId (from + 1) n.
Proof.
  unfold append_requests. simpl. rewrite N.add_0_r. f_equal.
  rewrite <- fmap_S_seq, <- list_fmap_compose.
  apply list_fmap_ext. intros _ j _. simpl.
  replace (from + N.of_nat (S j))%N
    with (from + 1 + N.of_nat j)%N by lia.
  done.
Qed.

Lemma append_chunks_run (todo : nat) (mediaData : Buffer)
    (mediaId : string) (chunks from : N) (s : UState) :
  append_run mediaData mediaId chunks from todo s
    (append_chunks respond todo mediaData mediaId chunks from s).
Proof.
  revert from s. induction todo as [|todo IH]; intros from s.
  - exists []. simpl. rewrite app_nil_r. split; [done|]. by left.
  - simpl. unfold bind, requestApi.
    set (req := MediaAppend mediaId from (chunk_at mediaData from)).
    destruct (respond req (remote s)) as [res rem'] eqn:Hres.
    destruct res as [v|err].
    + match goal with |- context [append_chunks _ _ _ _ _ _ ?s'] =>
        pose proof (IH (from + 1)%N s') as Hrec;
        destruct (append_chunks respond todo mediaData mediaId chunks
                    (from + 1)%N s') as [o2 s2] end.
      destruct Hrec as (ress & Htr & Hend). cbn [fst snd trace] in Htr, Hend.
      exists (Success v :: ress). cbn [fst snd]. split.
      { rewrite Htr, <- app_assoc.
        change (length (Success v :: ress)) with (S (length ress)).
        by rewrite append_requests_S. }
      destruct Hend as [(Ho & Hn & Hall)|(oks & e & -> & Hall & Hn & Ho)].
      * left. simpl in *. rewrite Hall. repeat split; try done. lia.
      * right. exists (Success v :: oks), e. simpl in *.
        repeat split; try done; try lia.
        rewrite Ho. f_equal. f_equal. lia.
    + exists [Failure err]. cbn [fst snd trace]. split.
      { unfold append_requests. simpl. by rewrite N.add_0_r. }
      right. exists [], err. simpl.
      rewrite N.add_0_r. split_and!; try done. lia.
Qed.

(** Every run of [uploadMedia] goes through the phases. *)
Lemma uploadMedia_run (mediaData : Buffer) (mediaType : MediaType)
    (s : UState) :
  upload_phases mediaData mediaType
    (match mediaType with
     | video_mp4 => "tweet_video"
     | image_jpeg => "tweet_image"
     end)
    (match mediaType with
     | video_mp4 => Math_ceil_div (buf_length mediaData) CHUNK_SIZE
     | image_jpeg => 1%N
     end) s
    (uploadMedia respond mediaData mediaType s).
Proof.
  set (category := match mediaType with
                   | video_mp4 => "tweet_video" | _ => "tweet_image" end).
  set (chunks := match mediaType with
                 | video_mp4 => Math_ceil_div (buf_length mediaData) CHUNK_SIZE
                 | image_jpeg => 1%N end).
  unfold uploadMedia.
  set (isVideo := match mediaType with
                  | image_jpeg => false | video_mp4 => true end).
  assert ((if isVideo then "tweet_video" else "tweet_image") = category)
    as -> by (subst isVideo category; by destruct mediaType).
  assert ((if isVideo then Math_ceil_div (buf_length mediaData) CHUNK_SIZE
           else 1%N) = chunks)
    as -> by (subst isVideo chunks; by destruct mediaType).
  set (init := MediaInit (buf_length mediaData) mediaType category).
  unfold bind at 1. unfold requestApi at 1.
  destruct (respond init (remote s)) as [res0 rem0] eqn:Hinit.
  set (s1 := {| this := this s; heap := heap s; remote := rem0;
                trace := trace s ++ [Requested init res0] |}).
  assert (∀ e, init_verdict res0 = inl e →
            upload_phases mediaData mediaType category chunks s
              (Threw e, s1)) as Hrefused.
  { intros e He. unfold upload_phases. exists res0, [].
    split; [done|]. by rewrite He. }
  destruct res0 as [v0|err0]; [|by apply Hrefused].
  unfold bind at 1.
  destruct (body_is_nullish v0) eqn:Hnull0.
  { apply Hrefused. unfold init_verdict. by rewrite Hnull0. }
  destruct (media_id_string (asMediaUploadResponse v0))
    as [mediaId|] eqn:Hid.
  2:{ apply Hrefused. unfold init_verdict. by rewrite Hnull0, Hid. }
  destruct (truthy_str (Some mediaId)) eqn:Htruthy.
  2:{ apply Hrefused. unfold init_verdict.
      by rewrite Hnull0, Hid, Htruthy. }
  assert (init_verdict (Success v0) = inr mediaId) as Hverdict
    by (unfold init_verdict; by rewrite Hnull0, Hid, Htruthy).
  clear Hrefused. unfold ret at 1. cbv beta iota. unfold bind at 1.
  pose proof (append_chunks_run (N.to_nat chunks) mediaData mediaId chunks
                0 s1) as Happ.
  destruct (append_chunks respond (N.to_nat chunks) mediaData mediaId chunks
              0 s1) as [o2 s2].
  destruct Happ as (ress & Htr & Hend).
  cbn [fst snd] in Htr, Hend.
  assert (trace s1 = trace s ++ [Requested init (Success v0)]) as Htr1
    by done.
  rewrite Htr1, <- app_assoc in Htr. cbn [app] in Htr.
  destruct Hend as [(-> & Hn & Hall)|(oks & e & -> & Hall & Hn & ->)].
  2:{ unfold upload_phases. eexists (Success v0), _.
      split; [exact Htr|]. rewrite Hverdict. left. exists oks, e.
      rewrite length_app, Nat.add_1_r, N.add_0_l. done. }
  unfold bind at 1. unfold requestApi at 1.
  destruct (respond (MediaFinalize mediaId) (remote s2))
    as [res3 rem3] eqn:Hfin.
  set (fin := Requested (MediaFinalize mediaId) res3).
  set (s3 := {| this := this s2; heap := heap s2; remote := rem3;
                trace := trace s2 ++ [fin] |}).
  set (appended := zip_with Requested
                     (append_requests mediaData mediaId 0 (N.to_nat chunks))
                     ress).
  assert (trace s3
          = trace s ++ Requested init (Success v0) :: appended ++ [fin])
    as Htr3.
  { subst s3 appended. cbn [trace]. rewrite Htr, Hn.
    by rewrite <- app_assoc. }
  assert (∀ o, finalize_verdict mediaType res3 = Some o →
            upload_phases mediaData mediaType category chunks s (o, s3))
    as Hdone.
  { intros o Ho. unfold upload_phases. eexists (Success v0), _.
    split; [exact Htr3|]. rewrite Hverdict. right.
    exists ress, res3, []. rewrite Ho. done. }
  destruct res3 as [v3|err3]; [|by apply Hdone].
  assert (finalize_verdict mediaType (Success v3)
          = if isVideo
            then if body_is_nullish v3
                 then Some (Threw (TypeError "processing_info"))
                 else match processing_info (asMediaUploadResponse v3) with
                      | Some _ => None
                      | None => Some (Returned (asMediaUploadResponse v3))
                      end
            else Some (Returned (asMediaUploadResponse v3))) as Hverdict3
    by (subst isVideo; by destruct mediaType).
  destruct isVideo; [|by apply Hdone].
  destruct (body_is_nullish v3); [by apply Hdone|].
  destruct (processing_info (asMediaUploadResponse v3)) as [info|];
    [|by apply Hdone].
  clear Hdone. rewrite bool_decide_eq_true_2 by eauto.
  unfold checkMediaProcessingStatus.
  pose proof (poll_status_run maxAttempts mediaId 0 s3) as Hrun.
  destruct (poll_status respond maxAttempts mediaId 0 s3) as [o4 s4].
  destruct Hrun as (evs4 & Htr4 & Hpolled);
    [unfold maxAttempts; lia | lia |].
  cbn [fst snd] in Htr4, Hpolled. rewrite Nat.sub_0_r in Hpolled.
  unfold upload_phases. eexists (Success v0), _. split.
  { cbn [fst snd]. rewrite Htr4, Htr3, <- app_assoc. cbn [app].
    rewrite <- app_assoc. reflexivity. }
  rewrite Hverdict. right. exists ress, (Success v3), evs4.
  rewrite Hverdict3. done.
Qed.

Lemma Math_ceil_div_spec (n d : N) :
  (0 < d)%N →
  (n ≤ Math_ceil_div n d * d ∧ Math_ceil_div n d * d < n + d)%N.
Proof.
  intros Hd. unfold Math_ceil_div.
  pose proof (N.div_mod n d ltac:(lia)) as Hdm.
  pose proof (N.mod_lt n d ltac:(lia)) as Hlt.
  destruct (N.eqb_spec (n mod d) 0) as [Hz|Hnz];
    revert Hdm Hlt Hz || revert Hdm Hlt Hnz;
    generalize (n / d)%N (n mod d)%N; intros q r Hdm Hlt Hr; nia.
Qed.

Lemma chunk_at_length (mediaData : Buffer) (i : N) :
  buf_length (chunk_at mediaData i)
  = N.min CHUNK_SIZE (buf_length mediaData - i * CHUNK_SIZE).
Proof. unfold chunk_at, Buffer_slice. cbn [buf_length]. lia. Qed.

(** Within the buffer, a chunk holds the bytes at its own offset. *)
Lemma chunk_at_byte (mediaData : Buffer) (i j : N) :
  (i * CHUNK_SIZE ≤ buf_length mediaData)%N →
  buf_byte (chunk_at mediaData i) j
  = buf_byte mediaData (i * CHUNK_SIZE + j).
Proof.
  intros Hi. unfold chunk_at, Buffer_slice. cbn [buf_byte].
  f_equal. lia.
Qed.

Lemma payload_bytes_app (a b : list Request) :
  payload_bytes (a ++ b) = (payload_bytes a + payload_bytes b)%N.
Proof.
  induction a as [|req a IH]; simpl; [done|].
  destruct req; rewrite IH; lia.
Qed.

(** The first [k] chunks carry the first [k * CHUNK_SIZE] bytes, or the
    whole buffer if that is shorter. *)
Lemma append_requests_bytes (mediaData : Buffer) (mediaId : string)
    (k : nat) :
  payload_bytes (append_requests mediaData mediaId 0 k)
  = N.min (N.of_nat k * CHUNK_SIZE) (buf_length mediaData).
Proof.
  induction k as [|k IH]; [simpl; lia|].
  unfold append_requests in *. rewrite seq_S, fmap_app, payload_bytes_app.
  rewrite IH. cbn -[chunk_at N.mul N.min N.of_nat N.add CHUNK_SIZE].
  rewrite chunk_at_length. unfold CHUNK_SIZE. lia.
Qed.

(** The chunks of a video cover the buffer; the single chunk of an image
    covers its first 5 MiB. *)
Lemma video_chunks_cover_buffer (mediaData : Buffer) (mediaId : string) :
  payload_bytes
    (append_requests mediaData mediaId 0
       (N.to_nat (Math_ceil_div (buf_length mediaData) CHUNK_SIZE)))
  = buf_length mediaData.
Proof.
  rewrite append_requests_bytes, N2Nat.id.
  pose proof (Math_ceil_div_spec (buf_length mediaData) CHUNK_SIZE) as H.
  unfold CHUNK_SIZE in *. lia.
Qed.

Lemma image_chunk_covers_5MiB (mediaData : Buffer) (mediaId : string) :
  payload_bytes (append_requests mediaData mediaId 0 1)
  = N.min CHUNK_SIZE (buf_length mediaData).
Proof. rewrite append_requests_bytes. unfold CHUNK_SIZE. lia. Qed.


(** For an image the loop is set up for one chunk: a single APPEND with
    segment index 0, then FINALIZE, and never a STATUS poll.  That one
    chunk is cut like a video chunk: it holds the first 5 MiB at most. *)
Lemma uploadMedia_image_phases (mediaData : Buffer) (s : UState) :
  upload_phases mediaData image_jpeg "tweet_image" 1 s
    (uploadMedia respond mediaData image_jpeg s) ∧
  buf_length (chunk_at mediaData 0)
  = N.min CHUNK_SIZE (buf_length mediaData).
Proof.
  split; [apply (uploadMedia_run mediaData image_jpeg)|].
  unfold chunk_at, Buffer_slice. cbn [buf_length]. lia.
Qed.

End UploadProperties.

(** ** Single tweets and tweet queries *)

Section TweetProperties.
Context {Body : Type} `{!ResponseBody Body} {Remote : Type}.
Variable respond : Request → Remote → RequestApiResult Body * Remote.

(** On strings and booleans [===] is equality. *)
Lemma strict_eq_string (v : JsValue) (s : string) :
  strict_eq v (JsString s) = true ↔ v = JsString s.
Proof.
  destruct v; simpl; try (split; [done | discriminate]).
  rewrite bool_decide_eq_true. split; congruence.
Qed.

Lemma strict_eq_bool (v : JsValue) (b : bool) :
  strict_eq v (JsBool b) = true ↔ v = JsBool b.
Proof.
  destruct v; simpl; try (split; [done | discriminate]).
  rewrite bool_decide_eq_true. split; congruence.
Qed.

Lemma strict_eq_id (t : Tweet) (id : string) :
  strict_eq (prop t "id") (JsString id) = true ↔ tweet_id t = Some id.
Proof.
  unfold tweet_id. rewrite strict_eq_string.
  destruct (prop t "id"); split; intros H; congruence.
Qed.

(** [Array.prototype.find]: the first element that passes, if any. *)
Lemma find_first {A} (f : A → bool) (l : list A) :
  match List.find f l with
  | Some x =>
      f x = true ∧
      ∃ before after,
        l = before ++ x :: after ∧ Forall (λ y, f y = false) before
  | None => Forall (λ y, f y = false) l
  end.
Proof.
  induction l as [|a l IH]; simpl; [done|].
  destruct (f a) eqn:Ha.
  - split; [done|]. by exists [], l.
  - destruct (List.find f l) as [x|].
    + destruct IH as (Hx & before & after & -> & Hb).
      split; [done|]. exists (a :: before), after. split; [done|].
      by constructor.
    + by constructor.
Qed.

(** C9.  When the conversation request succeeds, [getTweet] does not
    throw: it returns the first flattened tweet whose id equals the
    requested focal id, or [null] when no flattened tweet has that id.
    [Scraper.getTweet] takes this path whenever the scraper's authorizer
    is a [TwitterUserAuth]. *)
Theorem getTweet_focal_or_null (id : string) (s : @St Body Remote)
    (v : Body) (rem' : Remote) :
  respond (TweetDetail id) (remote s) = (Success v, rem') →
  (∃ found,
     (getTweet respond id s).1 = Returned found ∧
     match found with
     | Some t =>
         tweet_id t = Some id ∧
         ∃ before after,
           flattened v = before ++ t :: after ∧
           Forall (λ t', tweet_id t' ≠ Some id) before
     | None => Forall (λ t', tweet_id t' ≠ Some id) (flattened v)
     end) ∧
  (∀ a, heap s !! auth (this s) = Some a →
        auth_class a = TwitterUserAuth →
        Scraper_getTweet respond id s = getTweet respond id s).
Proof.
  intros Hres. split.
  - unfold getTweet, bind, requestApi. rewrite Hres. unfold flattened.
    destruct (body_is_falsy v); simpl.
    { exists None. split; [done|]. constructor. }
    set (f := λ tweet : Tweet, strict_eq (prop tweet "id") (JsString id)).
    exists (List.find f (parseThreadedConversation v)). split; [done|].
    assert (∀ l : list Tweet, Forall (λ y, f y = false) l →
              Forall (λ t', tweet_id t' ≠ Some id) l) as Hnone.
    { intros l Hl. eapply Forall_impl; [exact Hl|]. intros t Hf Hid.
      apply strict_eq_id in Hid. subst f. simpl in Hf. congruence. }
    pose proof (find_first f (parseThreadedConversation v)) as Hfind.
    destruct (List.find f (parseThreadedConversation v)) as [t|].
    + destruct Hfind as (Ht & before & after & Heq & Hb).
      split; [by apply strict_eq_id|]. exists before, after. auto.
    + auto.
  - intros a Ha Hclass. unfold Scraper_getTweet, bind, get_this, deref.
    rewrite Ha, Hclass. done.
Qed.

(** [getTweetsWhere] with a predicate keeps the tweets whose raw result is
    truthy. *)
Lemma getTweetsWhere_predicate (f : Tweet → PredicateResult)
    (ts : list Tweet) :
  getTweetsWhere ts (ByPredicate f)
  = filter (λ t, truthy_result (f t) = true) ts.
Proof.
  induction ts as [|t ts IH]; simpl; [done|].
  rewrite filter_cons. destruct (truthy_result (f t)) eqn:Ht.
  - rewrite decide_True by done. by rewrite IH.
  - rewrite decide_False by congruence. done.
Qed.


End TweetProperties.

(** ** Session *)

Section SessionProperties.
Context {Body : Type} {Remote : Type}.
Variable bearerToken : string.
Variable userAuth_login :
  Credentials → AuthObject → Remote → option JsError * AuthObject * Remote.
Variable document_location : option string.
Variable cookie_matches : string → Cookie → bool.
Variable Cookie_parse : string → option Cookie.

Abbreviation SState := (@St Body Remote).

Lemma setCookie_cookie_of (jar : CookieJar) (kd : CookieKey * CookieData) :
  CookieJar_setCookie jar (cookie_of kd) = <[kd.1 := kd.2]> jar.
Proof. by destruct kd as [[[dom pth] nm] []]. Qed.

Lemma foldl_insert_list_to_map (l : list (CookieKey * CookieData)) :
  foldl (λ (m : CookieJar) kd, <[kd.1 := kd.2]> m) ∅ l
  = list_to_map (reverse l).
Proof.
  induction l as [|kd l IH] using rev_ind; [done|].
  rewrite foldl_app, reverse_app. simpl. by rewrite IH.
Qed.

Lemma foldl_setCookie_cookie_of (l : list (CookieKey * CookieData))
    (jar : CookieJar) :
  foldl CookieJar_setCookie jar (cookie_of <$> l)
  = foldl (λ (m : CookieJar) kd, <[kd.1 := kd.2]> m) jar l.
Proof.
  revert jar. induction l as [|kd l IH]; intros jar; simpl; [done|].
  by rewrite setCookie_cookie_of, IH.
Qed.

(** Importing what a jar exports rebuilds the exported part of the jar. *)
Lemma import_export_jar (jar : CookieJar) (url : string) :
  foldl CookieJar_setCookie ∅ (CookieJar_getCookies cookie_matches jar url)
  = filter (λ kd, cookie_matches url (cookie_of kd) = true) jar.
Proof.
  unfold CookieJar_getCookies.
  set (m := filter (λ kd, cookie_matches url (cookie_of kd) = true) jar).
  rewrite foldl_setCookie_cookie_of, foldl_insert_list_to_map.
  rewrite <- (list_to_map_to_list m) at 2.
  symmetry. apply list_to_map_proper; [apply NoDup_fst_map_to_list|].
  symmetry. apply reverse_Permutation.
Qed.

Lemma export_import_export (jar : CookieJar) (url : string) :
  CookieJar_getCookies cookie_matches
    (foldl CookieJar_setCookie ∅
       (CookieJar_getCookies cookie_matches jar url)) url
  = CookieJar_getCookies cookie_matches jar url.
Proof.
  rewrite import_export_jar. unfold CookieJar_getCookies.
  by rewrite map_filter_filter_r.
Qed.

Lemma setCookies_each_run
    (jar_refuses : Cookie → string → option JsError) (l : nat)
    (cs : list Cookie) (o : AuthObject) (s : SState) :
  Forall (λ c, jar_refuses c twUrl = None) cs →
  heap s !! l = Some o →
  setCookies_each Cookie_parse jar_refuses l (inr <$> cs) s
  = (Returned tt,
     {| this := this s;
        heap := <[l := {| auth_class := auth_class o;
                          auth_bearer := auth_bearer o;
                          auth_jar :=
                            foldl CookieJar_setCookie (auth_jar o) cs |}]>
                  (heap s);
        remote := remote s; trace := trace s |}).
Proof.
  revert o s. induction cs as [|c cs IH]; intros o s Hok Hl; simpl.
  - unfold ret. f_equal. destruct s as [t h r tr], o as [cl b j].
    simpl in *. f_equal. by rewrite insert_id.
  - apply Forall_cons in Hok as [Hc Hok].
    unfold bind, cookieJar_setCookie, bind, deref. rewrite Hl, Hc.
    unfold store.
    erewrite IH; [|done|simpl; apply lookup_insert_eq].
    simpl. by rewrite insert_insert_eq.
Qed.

(** C2.  Whatever [getCookies] exports from a session, a fresh [Scraper]
    that imports it with [setCookies] reports logged in and exports the
    same cookies again; the import does not talk to the remote service.
    The jar is the spec's, which stores every record it is given. *)
Theorem cookie_round_trip (s s1 : SState) (cookies : list Cookie) :
  getCookies document_location cookie_matches s = (Returned cookies, s1) →
  let fresh_scraper := (Scraper_constructor bearerToken s1).2 in
  let imported :=
    setCookies Cookie_parse CookieJar_refuses (inr <$> cookies)
      fresh_scraper in
  imported.1 = Returned tt ∧
  (isLoggedIn imported.2).1 = Returned true ∧
  (getCookies document_location cookie_matches imported.2).1
  = Returned cookies ∧
  remote imported.2 = remote s ∧
  trace imported.2 = trace s.
Proof.
  intros Hget fresh_scraper imported.
  unfold getCookies, bind, get_this, deref in Hget.
  destruct (heap s !! authTrends (this s)) as [a|]; [|done].
  unfold ret in Hget. injection Hget as <- <-.
  set (url := match document_location with
              | Some location => location | None => twUrl end).
  set (cookies := CookieJar_getCookies cookie_matches (auth_jar a) url).
  assert (∃ l h,
            imported =
              (Returned tt,
               {| this := {| auth := l; authTrends := l;
                             token := bearerToken |};
                  heap := <[l := {| auth_class := TwitterUserAuth;
                                    auth_bearer := bearerToken;
                                    auth_jar :=
                                      foldl CookieJar_setCookie ∅ cookies |}]>
                            h;
                  remote := remote s; trace := trace s |}))
    as (l & h & ->).
  { subst imported fresh_scraper.
    unfold Scraper_constructor, useGuestAuth, bind, get_this, set_this,
      alloc.
    cbn [fst snd this heap remote trace token].
    unfold setCookies. unfold bind at 1 2. unfold get_this, alloc.
    cbn [fst snd this heap remote trace token].
    unfold bind at 1.
    erewrite setCookies_each_run;
      [|by apply Forall_true|cbn [heap]; apply lookup_insert_eq].
    unfold bind, get_this, set_this.
    cbn [fst snd this heap remote trace token auth_class auth_bearer
         auth_jar TwitterUserAuth_new].
    rewrite insert_insert_eq. eauto. }
  cbn [fst snd this heap remote trace].
  split; [done|].
  unfold isLoggedIn, getCookies, bind, get_this, deref, ret.
  cbn [fst snd this heap remote trace token auth authTrends].
  assert (∀ b j, Auth_isLoggedIn {| auth_class := TwitterUserAuth;
                                    auth_bearer := b; auth_jar := j |}
                 = true) as Hin by done.
  do 4 (cbn [fst snd this heap remote trace auth authTrends];
        rewrite ?Hin, ?lookup_insert_eq; cbv beta iota).
  split; [done|]. split; [|done].
  cbn [fst snd auth_jar]. fold url. f_equal.
  apply export_import_export.
Qed.

(** C1.  When [login] throws, the scraper is as it was: its fields, every
    authorizer object that existed before the call, hence what
    [isLoggedIn] answers, and the trace.  A later [login] allocates a new
    authorizer at a location unused so far and runs the negotiation on the
    freshly constructed object, whatever the failed attempt left behind. *)
Theorem login_failure_keeps_session (c : Credentials) (s s' : SState)
    (e : JsError) :
  scraper_wf s →
  login userAuth_login c s = (Threw e, s') →
  this s' = this s ∧
  (∀ l, l ∈ dom (heap s) → heap s' !! l = heap s !! l) ∧
  (isLoggedIn s').1 = (isLoggedIn s).1 ∧
  trace s' = trace s ∧
  ∃ l2 : nat,
    (l2 ∉ dom (heap s')) ∧
    ∀ c2,
      login userAuth_login c2 s' =
        (let '(r, o2, rem2) :=
           userAuth_login c2 (TwitterUserAuth_new (token (this s)))
             (remote s') in
         let h2 := <[l2 := o2]> (heap s') in
         match r with
         | Some e2 =>
             (Threw e2,
              {| this := this s; heap := h2; remote := rem2;
                 trace := trace s |})
         | None =>
             (Returned tt,
              {| this := {| auth := l2; authTrends := l2;
                            token := token (this s) |};
                 heap := h2; remote := rem2; trace := trace s |})
         end).
Proof.
  intros [Hauth Htrends]. unfold login at 1.
  unfold bind, get_this, alloc, TwitterUserAuth_login.
  cbn [fst snd this heap remote trace].
  set (l := fresh (dom (heap s))).
  assert (l ∉ dom (heap s)) as Hl by apply is_fresh.
  rewrite lookup_insert_eq.
  destruct (userAuth_login c (TwitterUserAuth_new (token (this s)))
              (remote s)) as [[r o'] rem'].
  destruct r as [e0|]; [|done].
  intros [= <- <-]. cbn [this heap remote trace].
  rewrite insert_insert_eq.
  assert (∀ l0, l0 ∈ dom (heap s) →
            <[l := o']> (heap s) !! l0 = heap s !! l0) as Hkeep.
  { intros l0 Hl0. apply lookup_insert_ne. intros ->. done. }
  split_and!; try done.
  - unfold isLoggedIn, bind, get_this, deref.
    cbn [fst snd this heap remote trace].
    apply elem_of_dom in Hauth as Hauth'.
    apply elem_of_dom in Htrends as Htrends'.
    rewrite (Hkeep _ Hauth'). destruct Hauth as [a ->].
    destruct (Auth_isLoggedIn a); [|done].
    cbn [fst snd this heap remote trace].
    rewrite (Hkeep _ Htrends'). by destruct Htrends as [b ->].
  - exists (fresh (dom (<[l := o']> (heap s)))). split; [apply is_fresh|].
    intros c2. unfold login, bind, get_this, alloc, TwitterUserAuth_login.
    cbn [fst snd this heap remote trace].
    rewrite lookup_insert_eq.
    destruct (userAuth_login c2 (TwitterUserAuth_new (token (this s))) rem')
      as [[r2 o2] rem2].
    rewrite insert_insert_eq. by destruct r2.
Qed.

End SessionProperties.

(** ** Pager: requests, cursors, failures *)

Section PagerExtras.
Context {Body : Type} `{!ResponseBody Body} {Remote : Type}.
Variable respond : Request → Remote → RequestApiResult Body * Remote.

(** Every run of the pager adds one of the traces of [paged]. *)
Lemma iterate_pages_paged (fuel : nat) (userId : string) (maxTweets : nat)
    (cursor : option string) (r : nat) (s : @St Body Remote) :
  ∃ evs,
    trace (iterate_pages respond fuel userId maxTweets cursor r s).2
    = trace s ++ evs ∧
    paged userId maxTweets r cursor evs
      (iterate_pages respond fuel userId maxTweets cursor r s).1.
Proof.
  revert cursor r s. induction fuel as [|fuel IH]; intros cursor r s.
  - exists []. rewrite app_nil_r. simpl.
    destruct (Nat.ltb_spec r maxTweets); simpl;
      (split; [done|]); by constructor.
  - destruct (Nat.lt_ge_cases r maxTweets) as [Hlt|Hge].
    2:{ rewrite iterate_pages_done by done. exists [].
        rewrite app_nil_r. split; [done|]. by constructor. }
    rewrite iterate_pages_body by done. cbv zeta.
    destruct (respond (page_request userId maxTweets r cursor) (remote s))
      as [res rem'].
    destruct res as [v|err].
    2:{ eexists. split; [reflexivity|]. by constructor. }
    destruct (truthy_str (next (parseTimelineTweetsV2 v))) eqn:Hnext.
    + match goal with |- context [iterate_pages _ _ _ _ ?c ?r' ?s'] =>
        destruct (IH c r' s') as (evs & Htr & Hp) end.
      eexists. split.
      * rewrite Htr. simpl. rewrite <- !app_assoc. reflexivity.
      * simpl. by apply paged_more.
    + eexists. split.
      * simpl. rewrite <- !app_assoc. reflexivity.
      * simpl. by apply paged_last.
Qed.

Lemma fetched_cursors_app (a b : list (@Event Body)) :
  fetched_cursors (a ++ b) = fetched_cursors a ++ fetched_cursors b.
Proof. apply omap_app. Qed.

Lemma fetched_cursors_Yielded (ts : list Tweet) :
  fetched_cursors (Yielded (Body:=Body) <$> ts) = [].
Proof. induction ts as [|t ts IH]; simpl; done. Qed.

Lemma yielded_prefix_split (out : list Tweet) (evs pre post : list Event)
    (req : Request) (res : RequestApiResult Body) :
  (Yielded <$> out) ++ evs = pre ++ Requested req res :: post →
  ∃ pre', pre = (Yielded <$> out) ++ pre' ∧
          evs = pre' ++ Requested req res :: post.
Proof.
  revert pre. induction out as [|t out IH]; intros pre Heq; simpl in *.
  - by exists pre.
  - destruct pre as [|e pre]; simpl in Heq; [discriminate|].
    injection Heq as <- Heq. destruct (IH pre Heq) as (pre' & -> & ->).
    by exists pre'.
Qed.

Lemma cursor_variable_truthy (c : option string) :
  truthy_str c = true → cursor_variable c = c.
Proof. unfold cursor_variable. by intros ->. Qed.

(** Where a request stands in a pager trace. *)
Lemma paged_request (userId : string) (maxTweets r : nat)
    (c : option string) (evs : list Event) (o : Outcome unit) :
  paged userId maxTweets r c evs o →
  ∀ pre req res post,
    evs = pre ++ Requested req res :: post →
    r + length (yielded pre) < maxTweets ∧
    req = page_request userId maxTweets (r + length (yielded pre))
            (default c (last (fetched_cursors pre))) ∧
    (∀ c', last (fetched_cursors pre) = Some c' → truthy_str c' = true) ∧
    (∀ e, res = Failure e → post = [] ∧ o = Threw e).
Proof.
  induction 1 as [r c Hr|r c Hr|r c err Hr|r c v Hr Hnext
                  |r c v evs o Hr Hnext Hp IH];
    intros pre req res post Heq.
  - by destruct pre.
  - by destruct pre.
  - destruct pre as [|e pre]; simpl in Heq.
    + injection Heq as <- <- <-. simpl. rewrite Nat.add_0_r.
      split_and!; try done. intros e [= <-]. done.
    + injection Heq as _ Heq. by destruct pre.
  - destruct pre as [|e pre]; simpl in Heq.
    + injection Heq as <- <- _. simpl. rewrite Nat.add_0_r.
      split_and!; done.
    + injection Heq as _ Heq. exfalso.
      apply (f_equal requests) in Heq.
      rewrite requests_Yielded, requests_app in Heq. simpl in Heq.
      by destruct (requests pre).
  - destruct pre as [|e pre]; simpl in Heq.
    + injection Heq as <- <- _. simpl. rewrite Nat.add_0_r.
      split_and!; done.
    + injection Heq as <- Heq.
      apply yielded_prefix_split in Heq as (pre' & -> & ->).
      destruct (IH pre' req res post eq_refl) as (Hlt & Hreq & Hc & Hf).
      set (out := take (maxTweets - r) (tweets (parseTimelineTweetsV2 v)))
        in *.
      set (rq := page_request userId maxTweets r c).
      assert (yielded (Requested rq (Success v) :: (Yielded <$> out) ++ pre')
              = out ++ yielded pre') as ->
        by (simpl; by rewrite yielded_app, yielded_Yielded).
      assert (fetched_cursors
                (Requested rq (Success v) :: (Yielded <$> out) ++ pre')
              = next (parseTimelineTweetsV2 v) :: fetched_cursors pre')
        as ->
        by (subst rq; unfold page_request; simpl;
            by rewrite fetched_cursors_app, fetched_cursors_Yielded).
      rewrite length_app, Nat.add_assoc, last_cons.
      destruct (last (fetched_cursors pre')) as [c'|] eqn:Hlast.
      * split_and!; try done; intros c'' [= <-]; by apply Hc.
      * simpl in *. split_and!; try done; intros c'' [= <-]; done.
Qed.

Lemma paged_threw (userId : string) (maxTweets r : nat)
    (c : option string) (evs : list Event) (o : Outcome unit) :
  paged userId maxTweets r c evs o →
  ∀ e, o = Threw e → ∃ pre req, evs = pre ++ [Requested req (Failure e)].
Proof.
  induction 1 as [| | r c err Hr | |r c v evs o Hr Hnext Hp IH];
    intros e He; try discriminate.
  - injection He as <-. by exists [], (page_request userId maxTweets r c).
  - destruct (IH e He) as (pre & req & ->).
    eexists (_ :: _ ++ pre), req. simpl. by rewrite <- app_assoc.
Qed.

Lemma paged_returned (userId : string) (maxTweets r : nat)
    (c : option string) (evs : list Event) (o : Outcome unit) :
  paged userId maxTweets r c evs o →
  o = Returned tt →
  maxTweets ≤ r + length (yielded evs)
  ∨ ∃ c', last (fetched_cursors evs) = Some c' ∧ truthy_str c' = false.
Proof.
  induction 1 as [r c Hr| | |r c v Hr Hnext|r c v evs o Hr Hnext Hp IH];
    intros Ho; try discriminate.
  - left. simpl. lia.
  - right. exists (next (parseTimelineTweetsV2 v)). split; [|done].
    unfold page_request. simpl. by rewrite fetched_cursors_Yielded.
  - set (out := take (maxTweets - r) (tweets (parseTimelineTweetsV2 v)))
      in *.
    set (rq := page_request userId maxTweets r c).
    assert (yielded (Requested rq (Success v) :: (Yielded <$> out) ++ evs)
            = out ++ yielded evs) as ->
      by (simpl; by rewrite yielded_app, yielded_Yielded).
    assert (fetched_cursors
              (Requested rq (Success v) :: (Yielded <$> out) ++ evs)
            = next (parseTimelineTweetsV2 v) :: fetched_cursors evs)
      as ->
      by (subst rq; unfold page_request; simpl;
          by rewrite fetched_cursors_app, fetched_cursors_Yielded).
    destruct (IH Ho) as [Hfull|(c' & Hlast & Hc')].
    + left. rewrite length_app. lia.
    + right. exists c'. split; [|done]. by rewrite last_cons, Hlast.
Qed.

(** X1.  Page sizes: every request the iterator sends is a timeline
    request for the given user, sent while fewer than [maxTweets] tweets
    have been yielded, and it asks for the number of tweets still missing,
    capped at 200. *)
Theorem getUserTweetsIterator_page_sizes (fuel : nat) (userId : string)
    (maxTweets : nat) (s : @St Body Remote) :
  ∃ evs,
    trace (getUserTweetsIterator respond fuel userId maxTweets s).2
    = trace s ++ evs ∧
    ∀ pre req res post,
      evs = pre ++ Requested req res :: post →
      length (yielded pre) < maxTweets ∧
      ∃ cursor,
        req = UserTweets userId
                (200 `min` (maxTweets - length (yielded pre))) cursor.
Proof.
  unfold getUserTweetsIterator.
  destruct (iterate_pages_paged fuel userId maxTweets None 0 s)
    as (evs & Htr & Hp).
  exists evs. split; [done|]. intros pre req res post Heq.
  destruct (paged_request _ _ _ _ _ _ Hp pre req res post Heq)
    as (Hlt & -> & _). simpl in *. split; [done|].
  unfold page_request. eauto.
Qed.

(** X2.  Cursor threading: the first request carries no cursor, and every
    later request carries the cursor of the page fetched just before it,
    unchanged; that cursor is never empty. *)
Theorem getUserTweetsIterator_threads_cursor (fuel : nat) (userId : string)
    (maxTweets : nat) (s : @St Body Remote) :
  ∃ evs,
    trace (getUserTweetsIterator respond fuel userId maxTweets s).2
    = trace s ++ evs ∧
    ∀ pre req res post,
      evs = pre ++ Requested req res :: post →
      match last (fetched_cursors pre) with
      | None => ∃ n, req = UserTweets userId n None
      | Some c =>
          truthy_str c = true ∧ ∃ n, req = UserTweets userId n c
      end.
Proof.
  unfold getUserTweetsIterator.
  destruct (iterate_pages_paged fuel userId maxTweets None 0 s)
    as (evs & Htr & Hp).
  exists evs. split; [done|]. intros pre req res post Heq.
  destruct (paged_request _ _ _ _ _ _ Hp pre req res post Heq)
    as (_ & -> & Hc & _).
  unfold page_request.
  destruct (last (fetched_cursors pre)) as [c|]; simpl.
  - specialize (Hc c eq_refl). split; [done|].
    rewrite cursor_variable_truthy by done. eauto.
  - eauto.
Qed.

(** X3.  A failed fetch ends the run: the iterator throws the transport's
    error itself, and the failed request is the last thing in the trace
    (no retry, no further request, no further tweet).  Conversely the
    iterator throws only what a fetch failed with. *)
Theorem getUserTweetsIterator_propagates_failure (fuel : nat)
    (userId : string) (maxTweets : nat) (s : @St Body Remote) :
  let run := getUserTweetsIterator respond fuel userId maxTweets s in
  ∃ evs,
    trace run.2 = trace s ++ evs ∧
    (∀ pre req err post,
       evs = pre ++ Requested req (Failure err) :: post →
       post = [] ∧ run.1 = Threw err) ∧
    (∀ err, run.1 = Threw err →
       ∃ pre req, evs = pre ++ [Requested req (Failure err)]).
Proof.
  intros run. subst run. unfold getUserTweetsIterator.
  destruct (iterate_pages_paged fuel userId maxTweets None 0 s)
    as (evs & Htr & Hp).
  exists evs. split; [done|]. split.
  - intros pre req err post Heq.
    destruct (paged_request _ _ _ _ _ _ Hp pre req _ post Heq)
      as (_ & _ & _ & Hf). by apply Hf.
  - by apply (paged_threw _ _ _ _ _ _ Hp).
Qed.

(** X4.  When the iterator returns normally, it has yielded [maxTweets]
    tweets or the last page it fetched came without a cursor. *)
Theorem getUserTweetsIterator_returns_when_done (fuel : nat)
    (userId : string) (maxTweets : nat) (s : @St Body Remote) :
  let run := getUserTweetsIterator respond fuel userId maxTweets s in
  run.1 = Returned tt →
  ∃ evs,
    trace run.2 = trace s ++ evs ∧
    (length (yielded evs) = maxTweets
     ∨ ∃ c, last (fetched_cursors evs) = Some c ∧ truthy_str c = false).
Proof.
  intros run Hret. subst run. unfold getUserTweetsIterator in *.
  destruct (iterate_pages_paged fuel userId maxTweets None 0 s)
    as (evs & Htr & Hp).
  destruct (iterate_pages_trace respond fuel userId maxTweets None 0 s)
    as (evs' & Htr' & Hy); [lia|].
  assert (evs' = evs) as -> by (rewrite Htr in Htr'; by simplify_list_eq).
  exists evs. split; [done|].
  destruct (paged_returned _ _ _ _ _ _ Hp Hret) as [Hfull|Hlast];
    [left|by right].
  rewrite Hy, length_take in *. lia.
Qed.

(** X5.  No progress guard: against a service whose pages are all empty
    but carry a cursor, the iterator never finishes.  Whatever the fuel,
    it is used up, one request per unit, and nothing is yielded. *)
Theorem getUserTweetsIterator_spins_on_empty_pages (fuel : nat)
    (userId : string) (maxTweets : nat) (s : @St Body Remote) :
  empty_pages_with_cursor respond →
  0 < maxTweets →
  let run := getUserTweetsIterator respond fuel userId maxTweets s in
  run.1 = OutOfFuel ∧
  ∃ evs,
    trace run.2 = trace s ++ evs ∧
    length (requests evs) = fuel ∧
    yielded evs = [].
Proof.
  intros Hempty Hmax. unfold getUserTweetsIterator.
  generalize (None : option string). revert s.
  induction fuel as [|fuel IH]; intros s cursor.
  - simpl. destruct (Nat.ltb_spec 0 maxTweets); [|exfalso; lia].
    split; [done|]. exists []. by rewrite app_nil_r.
  - rewrite iterate_pages_body by done. cbv zeta.
    destruct (Hempty (page_request userId maxTweets 0 cursor) (remote s))
      as (v & rem' & -> & Hnone & Hnext).
    rewrite Hnone, Hnext, take_nil. simpl.
    match goal with |- context [iterate_pages _ _ _ _ ?c _ ?s'] =>
      destruct (IH s' c) as (Ho & evs & Htr & Hn & Hy) end.
    split; [done|].
    eexists (_ :: evs). split.
    + rewrite Htr. simpl. rewrite app_nil_r, <- app_assoc. reflexivity.
    + simpl. by rewrite Hn, Hy.
Qed.

End PagerExtras.

(** ** Tweet queries by fields, rejected promises, the latest tweet *)

Lemma prop_own (t : Tweet) (key : string) (value : JsValue) :
  t !! key = Some value → prop t key = value.
Proof. intros H. unfold prop. by rewrite H. Qed.

Lemma checkTweetMatches_forall (tweet options : Tweet) :
  checkTweetMatches tweet options = true
  ↔ ∀ key value,
      options !! key = Some value → strict_eq (prop tweet key) value = true.
Proof.
  unfold checkTweetMatches, Object_keys. rewrite forallb_forall. split.
  - intros Hall key value Hkv.
    assert (In key (map_to_list options).*1) as Hin.
    { apply list_elem_of_In, list_elem_of_fmap. exists (key, value).
      split; [done|]. by apply elem_of_map_to_list. }
    specialize (Hall key Hin). by rewrite (prop_own options key value) in Hall.
  - intros Hall key Hin.
    apply list_elem_of_In, list_elem_of_fmap in Hin as [[k v] [-> Hkv]].
    apply elem_of_map_to_list in Hkv. simpl.
    rewrite (prop_own options k v) by done. by apply Hall.
Qed.

Lemma checkTweetMatches_singleton (t : Tweet) (key : string)
    (value : JsValue) :
  checkTweetMatches t {[ key := value ]} = strict_eq (prop t key) value.
Proof.
  unfold checkTweetMatches, Object_keys.
  rewrite map_to_list_singleton. simpl.
  rewrite (prop_own {[ key := value ]} key value)
    by apply lookup_singleton_eq.
  apply andb_true_r.
Qed.

(** [NaN] is the one double that differs from itself, and it differs from
    every double. *)
Lemma eqb_nan (x y : float) :
  PrimFloat.is_nan x = true → PrimFloat.eqb y x = false.
Proof.
  unfold PrimFloat.is_nan. rewrite negb_true_iff.
  rewrite !FloatAxioms.eqb_spec. unfold SFeqb.
  destruct (Prim2SF x) as [sx|sx| |sx m e]; simpl.
  - discriminate.
  - destruct sx; discriminate.
  - intros _. by destruct (Prim2SF y).
  - destruct sx; rewrite Z.compare_refl, Pos.compare_cont_refl;
      discriminate.
Qed.

Lemma strict_eq_nan (v : JsValue) (x : float) :
  PrimFloat.is_nan x = true → strict_eq v (JsNumber x) = false.
Proof. intros Hx. destruct v; simpl; try done. by apply eqb_nan. Qed.

Lemma strict_eq_self (v : JsValue) :
  strict_eq v v = true
  ↔ ∀ x, v = JsNumber x → PrimFloat.is_nan x = false.
Proof.
  destruct v; simpl; rewrite ?bool_decide_eq_true;
    try (split; [intros _ ?; discriminate | done]).
  unfold PrimFloat.is_nan. split.
  - intros Hx y [= <-]. by rewrite Hx.
  - intros Hx. specialize (Hx x eq_refl). by apply negb_false_iff in Hx.
Qed.

(** X6.  [checkTweetMatches] compares the listed properties with [===]
    and reads the tweet through its prototype chain.  The empty query
    matches every tweet; a query that lists [NaN] matches no tweet; a
    query for [undefined] under a key the tweet lacks matches unless the
    key names a member of [Object.prototype]; a tweet matches itself
    unless one of its own values is [NaN]; and a tweet that matches a
    query matches every query that lists fewer properties. *)
Theorem checkTweetMatches_strict_and_inherited (tweet : Tweet) :
  checkTweetMatches tweet ∅ = true ∧
  (∀ options key x,
     options !! key = Some (JsNumber x) →
     PrimFloat.is_nan x = true →
     checkTweetMatches tweet options = false) ∧
  (∀ key,
     tweet !! key = None →
     checkTweetMatches tweet {[ key := JsUndefined ]}
     = negb (bool_decide (key ∈ Object_prototype))) ∧
  (checkTweetMatches tweet tweet = true
   ↔ ∀ key x,
       tweet !! key = Some (JsNumber x) → PrimFloat.is_nan x = false) ∧
  (∀ options options',
     options ⊆ options' →
     checkTweetMatches tweet options' = true →
     checkTweetMatches tweet options = true).
Proof.
  split_and!.
  - apply checkTweetMatches_forall. intros k v Hkv.
    by rewrite lookup_empty in Hkv.
  - intros options key x Hkey Hnan.
    destruct (checkTweetMatches tweet options) eqn:Hm; [|done].
    rewrite checkTweetMatches_forall in Hm. specialize (Hm key _ Hkey).
    by rewrite strict_eq_nan in Hm.
  - intros key Hnone. rewrite checkTweetMatches_singleton.
    unfold prop. rewrite Hnone. by destruct (bool_decide _).
  - rewrite checkTweetMatches_forall. split.
    + intros Hall key x Hkey. specialize (Hall key _ Hkey).
      rewrite (prop_own tweet key _ Hkey) in Hall.
      by apply (strict_eq_self (JsNumber x)).
    + intros Hall key v Hkey. rewrite (prop_own tweet key v Hkey).
      apply strict_eq_self. intros x ->. by apply (Hall key).
  - intros options options' Hsub. rewrite !checkTweetMatches_forall.
    intros Hall key v Hkey. apply Hall.
    by apply (lookup_weaken options).
Qed.

(** X7.  For a query that involves no promise (a partial tweet, or a
    predicate returning plain booleans) the two searches agree:
    [getTweetWhere] returns, without throwing, the first of the tweets
    [getTweetsWhere] returns, or [null] when there is none. *)
Theorem getTweetWhere_is_first_of_getTweetsWhere (ts : list Tweet)
    (query : TweetQuery) :
  synchronous query →
  getTweetWhere ts query = Returned (head (getTweetsWhere ts query)).
Proof.
  intros Hsync. induction ts as [|t ts IH]; simpl; [done|].
  destruct query as [options|f]; simpl in *.
  - destruct (checkTweetMatches t options); [done|apply IH].
  - destruct (Hsync t) as [b ->]. simpl. destruct b; [done|apply IH].
Qed.

(** X8.  A rejected promise: when the predicate's promise for a tweet
    rejects and no earlier tweet matched, [getTweetWhere] throws the
    rejection reason, while [getTweetsWhere] returns normally and keeps
    that very tweet. *)
Theorem getTweetWhere_throws_rejection (f : Tweet → PredicateResult)
    (before after : list Tweet) (t : Tweet) (e : JsError) :
  (∀ t', t' ∈ before → await_result (f t') = Returned false) →
  f t = Async (Rejected e) →
  getTweetWhere (before ++ t :: after) (ByPredicate f) = Threw e ∧
  t ∈ getTweetsWhere (before ++ t :: after) (ByPredicate f).
Proof.
  intros Hbefore Ht. split.
  - induction before as [|t' before IH]; simpl.
    + by rewrite Ht.
    + rewrite (Hbefore t') by constructor.
      apply IH. intros t'' Hin. apply Hbefore. by constructor.
  - rewrite getTweetsWhere_predicate. apply list_elem_of_filter.
    split; [by rewrite Ht|]. set_solver.
Qed.

Lemma getTweetWhere_fields (ts : list Tweet) (options : Tweet) :
  getTweetWhere ts (ByFields options)
  = Returned (List.find (λ t, checkTweetMatches t options) ts).
Proof.
  induction ts as [|t ts IH]; simpl; [done|].
  by destruct (checkTweetMatches t options).
Qed.

(** X9.  [getLatestTweet]: with [max = 1] the first tweet of the timeline
    is returned as it comes, retweet or not.  Otherwise the result is the
    first tweet whose [isRetweet] is strictly equal to [includeRetweets]:
    with [includeRetweets = true] original tweets are skipped, and a
    tweet without the property is never returned. *)
Theorem getLatestTweet_first_with_flag (timeline : list Tweet)
    (includeRetweets : bool) (max : nat) :
  (max = 1 →
   getLatestTweet timeline includeRetweets max = Returned (head timeline)) ∧
  (max ≠ 1 →
   ∃ found,
     getLatestTweet timeline includeRetweets max = Returned found ∧
     match found with
     | Some t =>
         prop t "isRetweet" = JsBool includeRetweets ∧
         ∃ before after,
           timeline = before ++ t :: after ∧
           Forall (λ t', prop t' "isRetweet" ≠ JsBool includeRetweets)
             before
     | None =>
         Forall (λ t', prop t' "isRetweet" ≠ JsBool includeRetweets)
           timeline
     end).
Proof.
  unfold getLatestTweet. split.
  - intros ->. done.
  - intros Hmax. destruct (Nat.eqb_spec max 1) as [|_]; [done|].
    rewrite getTweetWhere_fields.
    set (f := λ t : Tweet,
                checkTweetMatches t
                  {[ "isRetweet" := JsBool includeRetweets ]}).
    exists (List.find f timeline). split; [done|].
    assert (∀ l : list Tweet, Forall (λ y, f y = false) l →
              Forall (λ t', prop t' "isRetweet" ≠ JsBool includeRetweets) l)
      as Hnone.
    { intros l Hl. eapply Forall_impl; [exact Hl|]. intros t Hf Hp.
      apply strict_eq_bool in Hp.
      rewrite <- checkTweetMatches_singleton in Hp.
      subst f. simpl in Hf. congruence. }
    pose proof (find_first f timeline) as Hfind.
    destruct (List.find f timeline) as [t|].
    + destruct Hfind as (Ht & before & after & Heq & Hb).
      split.
      { apply strict_eq_bool. by rewrite <- checkTweetMatches_singleton. }
      exists before, after. auto.
    + auto.
Qed.

(** ** Media uploader: chunks, results, errors *)

(** X10.  The chunks of a video partition the buffer: each of the
    ceil(n / 5 MiB) chunks is non-empty and at most 5 MiB long, all but
    the last are exactly 5 MiB, chunk [i] holds the bytes of the buffer
    from offset [i * 5 MiB] on, and together the APPEND requests carry
    exactly the [n] bytes of the buffer. *)
Theorem video_chunks_partition_buffer (mediaData : Buffer) :
  let chunks := Math_ceil_div (buf_length mediaData) CHUNK_SIZE in
  (∀ i, (i < chunks)%N →
     (0 < buf_length (chunk_at mediaData i) ≤ CHUNK_SIZE)%N ∧
     ((i + 1 < chunks)%N →
      buf_length (chunk_at mediaData i) = CHUNK_SIZE) ∧
     ∀ j, buf_byte (chunk_at mediaData i) j
          = buf_byte mediaData (i * CHUNK_SIZE + j)) ∧
  ∀ mediaId,
    payload_bytes (append_requests mediaData mediaId 0 (N.to_nat chunks))
    = buf_length mediaData.
Proof.
  intros chunks. split; [|intros mediaId; apply video_chunks_cover_buffer].
  intros i Hi.
  pose proof (Math_ceil_div_spec (buf_length mediaData) CHUNK_SIZE) as Hc.
  fold chunks in Hc. rewrite chunk_at_length.
  unfold CHUNK_SIZE in *.
  assert (i * (5 * 1024 * 1024) < buf_length mediaData)%N as Hlt by lia.
  split_and!; try lia.
  intros j. apply chunk_at_byte. unfold CHUNK_SIZE. lia.
Qed.

Section UploadExtras.
Context {Body : Type} `{!ResponseBody Body} {Remote : Type}.
Variable respond : Request → Remote → RequestApiResult Body * Remote.

Lemma init_verdict_cases (res : RequestApiResult Body) :
  match init_verdict res with
  | inl e =>
      e = Error "Failed to initialize media upload"
      ∨ ∃ v, res = Success v ∧ body_is_nullish v = true ∧
             e = TypeError "media_id_string"
  | inr _ => True
  end.
Proof.
  unfold init_verdict. destruct res as [v|err]; [|by left].
  destruct (body_is_nullish v) eqn:Hnull; [right; by exists v|].
  destruct (media_id_string (asMediaUploadResponse v)); [|by left].
  destruct (truthy_str _); [done | by left].
Qed.

Lemma finalize_verdict_cases (mediaType : MediaType)
    (res : RequestApiResult Body) :
  match finalize_verdict mediaType res with
  | Some (Returned r) => ∃ v, res = Success v ∧ r = asMediaUploadResponse v
  | Some (Threw e) =>
      e = Error "Failed to finalize media upload"
      ∨ ∃ v, res = Success v ∧ body_is_nullish v = true ∧
             e = TypeError "processing_info"
  | Some OutOfFuel => False
  | None => True
  end.
Proof.
  unfold finalize_verdict. destruct res as [v|err]; [|by left].
  destruct mediaType; [by exists v|].
  destruct (body_is_nullish v) eqn:Hnull; [right; by exists v|].
  destruct (processing_info (asMediaUploadResponse v)); [done|by exists v].
Qed.

Lemma poll_verdict_cases (last_res : RequestApiResult Body) :
  match poll_verdict last_res with
  | Returned r =>
      ∃ v, last_res = Success v ∧ r = asMediaUploadResponse v
  | Threw e =>
      e = Error "Failed to check media processing status"
      ∨ e = Error "Video processing failed"
      ∨ e = Error "Video processing timed out"
      ∨ ∃ v, last_res = Success v ∧ body_is_nullish v = true ∧
             e = TypeError "processing_info"
  | OutOfFuel => False
  end.
Proof.
  unfold poll_verdict. destruct last_res as [v|err]; [|by left].
  destruct (body_is_nullish v) eqn:Hnull.
  { right. right. right. by exists v. }
  destruct (processing_info (asMediaUploadResponse v)) as [info|];
    [|by exists v].
  destruct (bool_decide _); [by exists v|].
  destruct (bool_decide _); [right; by left | right; right; by left].
Qed.

Lemma last_results_snoc (evs : list (@Event Body)) (req : Request)
    (res : RequestApiResult Body) :
  last (results (evs ++ [Requested req res])) = Some res.
Proof. rewrite results_app. simpl. apply last_snoc. Qed.

Lemma last_requests_snoc (evs : list (@Event Body)) (req : Request)
    (res : RequestApiResult Body) :
  last (requests (evs ++ [Requested req res])) = Some req.
Proof. rewrite requests_app. simpl. apply last_snoc. Qed.

(** How an upload ends, with the last answer it received: it returns what
    that answer carried, after FINALIZE or STATUS; or it raises one of its
    own errors; or it fails to read a property of an answer whose body is
    null. *)
Lemma uploadMedia_ends (mediaData : Buffer) (mediaType : MediaType)
    (s : @St Body Remote) :
  let chunks := match mediaType with
                | video_mp4 => Math_ceil_div (buf_length mediaData) CHUNK_SIZE
                | image_jpeg => 1%N
                end in
  let run := uploadMedia respond mediaData mediaType s in
  ∃ evs,
    trace run.2 = trace s ++ evs ∧
    match run.1 with
    | Returned r =>
        ∃ v, last (results evs) = Some (Success v) ∧
             r = asMediaUploadResponse v ∧
             ∃ mediaId,
               last (requests evs) = Some (MediaFinalize mediaId)
               ∨ last (requests evs) = Some (MediaStatus mediaId)
    | Threw e =>
        upload_error chunks e
        ∨ ∃ v reading,
            last (results evs) = Some (Success v) ∧
            body_is_nullish v = true ∧
            e = TypeError reading
    | OutOfFuel => False
    end.
Proof.
  intros chunks run. subst run.
  destruct (uploadMedia_run respond mediaData mediaType s)
    as (res0 & evs & Htr & Hphase). fold chunks in Hphase.
  set (init := MediaInit _ _ _) in *.
  exists (Requested init res0 :: evs). split; [done|].
  pose proof (init_verdict_cases res0) as Hinit.
  destruct (init_verdict res0) as [e|mediaId].
  { destruct Hphase as [-> ->].
    destruct Hinit as [->|(v & -> & Hnull & ->)]; [left; by left|].
    right. by exists v, "media_id_string". }
  clear Hinit.
  destruct Hphase as [(oks & err & Hn & _ & _ & ->)
                     |(oks & fin & polls & Hn & _ & -> & Hfin)].
  { left. right. left. exists (N.of_nat (length oks)). split; [lia|done]. }
  set (appended := zip_with Requested _ oks) in *.
  pose proof (finalize_verdict_cases mediaType fin) as Hcases.
  destruct (finalize_verdict mediaType fin) as [o|].
  - destruct Hfin as [-> ->].
    change (Requested init res0 :: appended
              ++ [Requested (MediaFinalize mediaId) fin])
      with ((Requested init res0 :: appended)
              ++ [Requested (MediaFinalize mediaId) fin]).
    rewrite last_results_snoc, last_requests_snoc.
    destruct o as [r|e|]; [| |done].
    + destruct Hcases as (v & -> & ->). exists v.
      split; [done|]. split; [done|]. exists mediaId. by left.
    + destruct Hcases as [->|(v & -> & Hnull & ->)].
      * left. right. right. by left.
      * right. by exists v, "processing_info".
  - clear Hcases.
    destruct Hfin as (earlier & final & Hres & Hreq & _ & _ & _ & _ & ->).
    assert (Requested init res0 :: appended
              ++ Requested (MediaFinalize mediaId) fin :: polls
            = (Requested init res0 :: appended
                 ++ [Requested (MediaFinalize mediaId) fin]) ++ polls)
      as -> by (simpl; by rewrite <- app_assoc).
    rewrite results_app, requests_app, Hres, Hreq, replicate_S_end.
    rewrite !app_assoc, !last_snoc.
    pose proof (poll_verdict_cases final) as Hcases.
    destruct (poll_verdict final) as [r|e|]; [| |done].
    + destruct Hcases as (v & -> & ->). exists v.
      split; [done|]. split; [done|]. exists mediaId. by right.
    + destruct Hcases as [->|[->|[->|(v & -> & Hnull & ->)]]].
      * left. do 3 right. by left.
      * left. do 4 right. by left.
      * left. do 5 right. done.
      * right. by exists v, "processing_info".
Qed.

(** X11.  What [uploadMedia] returns is the body of the last response it
    received (the FINALIZE response, or the last STATUS response when it
    polled): the media id handed to the caller is never the one from
    INIT. *)
Theorem uploadMedia_returns_last_response (mediaData : Buffer)
    (mediaType : MediaType) (s : @St Body Remote)
    (r : MediaUploadResponse) :
  let run := uploadMedia respond mediaData mediaType s in
  run.1 = Returned r →
  ∃ evs v,
    trace run.2 = trace s ++ evs ∧
    last (results evs) = Some (Success v) ∧
    r = asMediaUploadResponse v ∧
    (∃ mediaId, last (requests evs) = Some (MediaFinalize mediaId)
                ∨ last (requests evs) = Some (MediaStatus mediaId)).
Proof.
  intros run Hret. subst run.
  destruct (uploadMedia_ends mediaData mediaType s) as (evs & Htr & Hend).
  rewrite Hret in Hend. destruct Hend as (v & Hlast & -> & Hreq).
  by exists evs, v.
Qed.

(** X12.  [uploadMedia] never runs out of fuel, and what it throws is one
    of its own errors (the initialize, append (naming a chunk below
    [chunks]), finalize, status, processing-failed and timeout errors) or
    the [TypeError] of a property read on the body of the last response,
    which then was a success with a null body.  The error a failed
    request came back with is never passed on. *)
Theorem uploadMedia_raises_own_errors (mediaData : Buffer)
    (mediaType : MediaType) (s : @St Body Remote) :
  let chunks := match mediaType with
                | video_mp4 => Math_ceil_div (buf_length mediaData) CHUNK_SIZE
                | image_jpeg => 1%N
                end in
  let run := uploadMedia respond mediaData mediaType s in
  run.1 ≠ OutOfFuel ∧
  ∀ e, run.1 = Threw e →
    upload_error chunks e
    ∨ ∃ evs v reading,
        trace run.2 = trace s ++ evs ∧
        last (results evs) = Some (Success v) ∧
        body_is_nullish v = true ∧
        e = TypeError reading.
Proof.
  intros chunks run. subst run.
  destruct (uploadMedia_ends mediaData mediaType s) as (evs & Htr & Hend).
  fold chunks in Hend. split.
  - intros Ho. by rewrite Ho in Hend.
  - intros e Ho. rewrite Ho in Hend.
    destruct Hend as [?|(v & reading & ? & ? & ?)]; [by left|].
    right. by exists evs, v, reading.
Qed.

End UploadExtras.

(** ** Session: construction, logout, clearing and replacing cookies *)

Section SessionExtras.
Context {Body : Type} `{!ResponseBody Body} {Remote : Type}.
Variable respond : Request → Remote → RequestApiResult Body * Remote.
Variable bearerToken : string.
Variable auth_logout :
  AuthObject → Remote → option JsError * AuthObject * Remote.
Variable document_location : option string.
Variable cookie_matches : string → Cookie → bool.
Variable Cookie_parse : string → option Cookie.
Variable jar_refuses : Cookie → string → option JsError.

Abbreviation XState := (@St Body Remote).

Lemma getCookies_empty_jar (url : string) :
  CookieJar_getCookies cookie_matches ∅ url = [].
Proof.
  unfold CookieJar_getCookies. by rewrite map_filter_empty, map_to_list_empty.
Qed.

Lemma cookie_of_key_data (c : Cookie) :
  cookie_of (cookie_key c, cookie_data c) = c.
Proof. by destruct c. Qed.

(** A jar filled by [setCookie] holds nothing but the cookies set. *)
Lemma foldl_setCookie_lookup (cs : list Cookie) (k : CookieKey)
    (d : CookieData) :
  foldl CookieJar_setCookie ∅ cs !! k = Some d → cookie_of (k, d) ∈ cs.
Proof.
  induction cs as [|c cs IH] using rev_ind.
  - simpl. by rewrite lookup_empty.
  - rewrite foldl_app. cbn [foldl]. unfold CookieJar_setCookie at 1.
    intros [[<- <-]|[_ Hin]]%lookup_insert_Some.
    + rewrite cookie_of_key_data. set_solver.
    + specialize (IH Hin). set_solver.
Qed.

Lemma isLoggedIn_value (s : XState) (a b : AuthObject) :
  heap s !! auth (this s) = Some a →
  heap s !! authTrends (this s) = Some b →
  (isLoggedIn s).1 = Returned (Auth_isLoggedIn a && Auth_isLoggedIn b).
Proof.
  intros Ha Hb. unfold isLoggedIn, bind, get_this, deref.
  cbn [fst snd]. rewrite Ha.
  destruct (Auth_isLoggedIn a); [|done].
  cbn [fst snd]. by rewrite Hb.
Qed.

(** X13.  [new Scraper()] starts as a guest: its two authorizers are two
    distinct new objects, it is not logged in, it has no cookies, and
    [getTweet] takes the anonymous path. *)
Theorem Scraper_constructor_is_guest (s : XState) :
  let run := Scraper_constructor bearerToken s in
  run.1 = Returned tt ∧
  auth (this run.2) ≠ authTrends (this run.2) ∧
  (auth (this run.2) ∉ dom (heap s)) ∧
  (authTrends (this run.2) ∉ dom (heap s)) ∧
  (isLoggedIn run.2).1 = Returned false ∧
  (getCookies document_location cookie_matches run.2).1 = Returned [] ∧
  ∀ id, Scraper_getTweet respond id run.2 = getTweetAnonymous respond id run.2.
Proof.
  intros run. subst run.
  unfold Scraper_constructor, useGuestAuth, bind, get_this, set_this, alloc.
  cbn [fst snd this heap remote trace token auth authTrends].
  set (g := TwitterGuestAuth_new bearerToken).
  set (a := fresh (dom (heap s))).
  set (b := fresh (dom (<[a := g]> (heap s)))).
  assert (a ∉ dom (heap s)) as Ha by apply is_fresh.
  assert (b ∉ dom (<[a := g]> (heap s))) as Hb by apply is_fresh.
  rewrite dom_insert_L in Hb.
  assert (a ≠ b) as Hab by set_solver.
  assert (<[b := g]> (<[a := g]> (heap s)) !! a = Some g) as Hla
    by (by rewrite lookup_insert_ne, lookup_insert_eq).
  split; [done|]. split; [done|]. split; [done|]. split; [set_solver|].
  split; [|split].
  - unfold isLoggedIn, bind, get_this, deref.
    cbn [fst snd this heap auth authTrends]. by rewrite Hla.
  - unfold getCookies, bind, get_this, deref, ret.
    cbn [fst snd this heap auth authTrends].
    rewrite lookup_insert_eq. cbn [fst]. subst g.
    by rewrite getCookies_empty_jar.
  - intros id. unfold Scraper_getTweet, bind, get_this, deref.
    cbn [fst snd this heap auth authTrends]. by rewrite Hla.
Qed.

(** X14.  [logout] runs the server-side logout of [auth] and then, on the
    object this left behind, that of [authTrends] (the same object after a
    login).  If the first throws, [logout] throws its error, the second is
    not attempted and the scraper keeps its authorizers.  If the second
    throws, [logout] throws its error and the scraper keeps its
    authorizers.  Only if both end normally is the scraper a guest again:
    two distinct new authorizers, not logged in, no cookies. *)
Theorem logout_resets_only_on_success (s : XState) (o1 : AuthObject) :
  heap s !! auth (this s) = Some o1 →
  is_Some (heap s !! authTrends (this s)) →
  let run := logout auth_logout s in
  let '(r1, o1', rem1) := auth_logout o1 (remote s) in
  let h1 := <[auth (this s) := o1']> (heap s) in
  match r1 with
  | Some e1 =>
      run = (Threw e1,
             {| this := this s; heap := h1; remote := rem1;
                trace := trace s |})
  | None =>
      ∃ o2,
        h1 !! authTrends (this s) = Some o2 ∧
        let '(r2, o2', rem2) := auth_logout o2 rem1 in
        let h2 := <[authTrends (this s) := o2']> h1 in
        match r2 with
        | Some e2 =>
            run = (Threw e2,
                   {| this := this s; heap := h2; remote := rem2;
                      trace := trace s |})
        | None =>
            run.1 = Returned tt ∧
            remote run.2 = rem2 ∧
            trace run.2 = trace s ∧
            (∀ l, l ∈ dom (heap s) → heap run.2 !! l = h2 !! l) ∧
            auth (this run.2) ≠ authTrends (this run.2) ∧
            (auth (this run.2) ∉ dom (heap s)) ∧
            (authTrends (this run.2) ∉ dom (heap s)) ∧
            token (this run.2) = token (this s) ∧
            (isLoggedIn run.2).1 = Returned false ∧
            (getCookies document_location cookie_matches run.2).1
            = Returned []
        end
  end.
Proof.
  intros Ha0 Hb0 run. subst run.
  unfold logout, bind, get_this, TwitterAuth_logout.
  cbn [fst snd this heap remote trace]. rewrite Ha0.
  destruct (auth_logout o1 (remote s)) as [[r1 o1'] rem1].
  destruct r1 as [e1|]; [done|].
  cbn [fst snd this heap remote trace].
  assert (is_Some (<[auth (this s) := o1']> (heap s)
                     !! authTrends (this s))) as [o2 Ho2]
    by (apply lookup_insert_is_Some'; by right).
  exists o2. split; [done|]. rewrite Ho2.
  destruct (auth_logout o2 rem1) as [[r2 o2'] rem2].
  destruct r2 as [e2|]; [done|].
  unfold useGuestAuth, bind, get_this, set_this, alloc.
  cbn [fst snd this heap remote trace token auth authTrends].
  set (h2 := <[authTrends (this s) := o2']>
               (<[auth (this s) := o1']> (heap s))).
  assert (dom h2 = dom (heap s)) as Hdom.
  { subst h2. rewrite dom_insert_lookup_L by eauto.
    apply dom_insert_lookup_L. eauto. }
  set (g := TwitterGuestAuth_new (token (this s))).
  set (a := fresh (dom h2)).
  set (b := fresh (dom (<[a := g]> h2))).
  assert (a ∉ dom (heap s)) as Ha by (rewrite <- Hdom; apply is_fresh).
  assert (b ∉ dom (<[a := g]> h2)) as Hb by apply is_fresh.
  rewrite dom_insert_L, Hdom, not_elem_of_union in Hb.
  destruct Hb as [Hba Hb]. rewrite not_elem_of_singleton in Hba.
  assert (a ≠ b) as Hab by done.
  assert (<[b := g]> (<[a := g]> h2) !! a = Some g) as Hla
    by (by rewrite lookup_insert_ne, lookup_insert_eq).
  split; [done|]. split; [done|]. split; [done|]. split.
  { intros l Hl. rewrite !lookup_insert_ne; [done | | ]; by intros ->. }
  split; [done|]. split; [done|]. split; [done|]. split; [done|].
  split.
  - unfold isLoggedIn, bind, get_this, deref.
    cbn [fst snd this heap auth authTrends]. by rewrite Hla.
  - unfold getCookies, bind, get_this, deref, ret.
    cbn [fst snd this heap auth authTrends].
    rewrite lookup_insert_eq. cbn [fst]. subst g.
    by rewrite getCookies_empty_jar.
Qed.

(** X15.  [clearCookies] empties the jar of the authorizer in [auth] and
    the jar of the authorizer in [authTrends], one shared object or two,
    and changes nothing else: class and bearer token of both are kept,
    every other object, the scraper's fields, the remote service and the
    trace are as before, and [getCookies] then returns no cookie. *)
Theorem clearCookies_empties_jars (s : XState) (a b : AuthObject) :
  heap s !! auth (this s) = Some a →
  heap s !! authTrends (this s) = Some b →
  let run := clearCookies s in
  run.1 = Returned tt ∧
  this run.2 = this s ∧
  remote run.2 = remote s ∧
  trace run.2 = trace s ∧
  heap run.2 !! auth (this s)
  = Some {| auth_class := auth_class a; auth_bearer := auth_bearer a;
            auth_jar := ∅ |} ∧
  heap run.2 !! authTrends (this s)
  = Some {| auth_class := auth_class b; auth_bearer := auth_bearer b;
            auth_jar := ∅ |} ∧
  (∀ l, l ≠ auth (this s) → l ≠ authTrends (this s) →
        heap run.2 !! l = heap s !! l) ∧
  (getCookies document_location cookie_matches run.2).1 = Returned [].
Proof.
  intros Ha Hb run. subst run.
  unfold clearCookies, cookieJar_removeAllCookies, bind, get_this, deref,
    store.
  cbn [fst snd this heap remote trace]. rewrite Ha.
  cbn [fst snd this heap remote trace].
  set (a1 := {| auth_class := auth_class a; auth_bearer := auth_bearer a;
                auth_jar := ∅ |}).
  set (b1 := {| auth_class := auth_class b; auth_bearer := auth_bearer b;
                auth_jar := ∅ |}).
  assert (∃ b', <[auth (this s) := a1]> (heap s) !! authTrends (this s)
                = Some b' ∧
                {| auth_class := auth_class b'; auth_bearer := auth_bearer b';
                   auth_jar := ∅ |} = b1)
    as (b' & Hb' & Hb1).
  { destruct (decide (auth (this s) = authTrends (this s))) as [Heq|Hne].
    - exists a1. rewrite Heq, lookup_insert_eq. split; [done|].
      rewrite Heq in Ha. by simplify_eq.
    - exists b. by rewrite lookup_insert_ne. }
  rewrite Hb'. cbn [fst snd this heap remote trace]. rewrite Hb1.
  split_and!; try done.
  - destruct (decide (auth (this s) = authTrends (this s))) as [Heq|Hne].
    + rewrite Heq, lookup_insert_eq. rewrite Heq in Ha. subst a1 b1.
      by simplify_eq.
    + by rewrite lookup_insert_ne, lookup_insert_eq.
  - apply lookup_insert_eq.
  - intros l Hla Hlb. by rewrite !lookup_insert_ne.
  - unfold getCookies, bind, get_this, deref, ret.
    cbn [fst snd this heap]. rewrite lookup_insert_eq. cbn [fst auth_jar].
    by rewrite getCookies_empty_jar.
Qed.

(** Either every element passes, or there is a first one that does not. *)
Lemma Forall_or_first {A} (P : A → Prop) `{!∀ x, Decision (P x)}
    (l : list A) :
  Forall P l
  ∨ ∃ before x after, l = before ++ x :: after ∧ Forall P before ∧ ¬ P x.
Proof.
  induction l as [|y l IH]; [by left|].
  destruct (decide (P y)) as [Hy|Hy].
  - destruct IH as [Hall|(before & x & after & -> & Hb & Hx)].
    + left. by constructor.
    + right. exists (y :: before), x, after. split; [done|].
      split; [by constructor | done].
  - right. by exists [], y, l.
Qed.

(** The import loop stops at the first cookie the jar refuses. *)
Lemma setCookies_each_refused (l : nat) (before after : list Cookie)
    (c : Cookie) (e : JsError) (o : AuthObject) (s : XState) :
  Forall (λ c, jar_refuses c twUrl = None) before →
  jar_refuses c twUrl = Some e →
  heap s !! l = Some o →
  setCookies_each Cookie_parse jar_refuses l
    (inr <$> before ++ c :: after) s
  = (Threw e,
     {| this := this s;
        heap := <[l := {| auth_class := auth_class o;
                          auth_bearer := auth_bearer o;
                          auth_jar :=
                            foldl CookieJar_setCookie (auth_jar o) before |}]>
                  (heap s);
        remote := remote s; trace := trace s |}).
Proof.
  intros Hok Hc. revert o s.
  induction Hok as [|c0 before Hc0 Hok IH]; intros o s Hl; simpl.
  - unfold bind, cookieJar_setCookie, bind, deref. rewrite Hl, Hc.
    unfold throw. f_equal. destruct s as [t h r tr], o as [cl b j].
    simpl in *. f_equal. by rewrite insert_id.
  - unfold bind at 1. unfold cookieJar_setCookie, bind, deref.
    rewrite Hl, Hc0. unfold store.
    erewrite IH by (simpl; apply lookup_insert_eq).
    simpl. by rewrite insert_insert_eq.
Qed.

Lemma setCookies_run (cs : list Cookie) (s : XState) :
  Forall (λ c, jar_refuses c twUrl = None) cs →
  setCookies Cookie_parse jar_refuses (inr <$> cs) s =
    (Returned tt,
     {| this := {| auth := fresh (dom (heap s));
                   authTrends := fresh (dom (heap s));
                   token := token (this s) |};
        heap := <[fresh (dom (heap s)) :=
                    {| auth_class := TwitterUserAuth;
                       auth_bearer := token (this s);
                       auth_jar := foldl CookieJar_setCookie ∅ cs |}]>
                  (heap s);
        remote := remote s; trace := trace s |}).
Proof.
  intros Hok. unfold setCookies. unfold bind at 1 2. unfold get_this, alloc.
  cbn [fst snd this heap remote trace token].
  unfold bind at 1.
  erewrite setCookies_each_run;
    [|done|cbn [heap]; apply lookup_insert_eq].
  unfold bind, get_this, set_this.
  cbn [fst snd this heap remote trace token auth_class auth_bearer
       auth_jar TwitterUserAuth_new].
  by rewrite insert_insert_eq.
Qed.

Lemma setCookies_refused (before after : list Cookie) (c : Cookie)
    (e : JsError) (s : XState) :
  Forall (λ c, jar_refuses c twUrl = None) before →
  jar_refuses c twUrl = Some e →
  setCookies Cookie_parse jar_refuses (inr <$> before ++ c :: after) s =
    (Threw e,
     {| this := this s;
        heap := <[fresh (dom (heap s)) :=
                    {| auth_class := TwitterUserAuth;
                       auth_bearer := token (this s);
                       auth_jar := foldl CookieJar_setCookie ∅ before |}]>
                  (heap s);
        remote := remote s; trace := trace s |}).
Proof.
  intros Hok Hc. unfold setCookies. unfold bind at 1 2.
  unfold get_this, alloc.
  cbn [fst snd this heap remote trace token].
  unfold bind at 1.
  erewrite setCookies_each_refused;
    [|done|done|cbn [heap]; apply lookup_insert_eq].
  cbn [fst snd this heap remote trace token auth_class auth_bearer
       auth_jar TwitterUserAuth_new].
  by rewrite insert_insert_eq.
Qed.

(** X16.  [setCookies] builds a new authorizer and offers it the cookie
    records one by one for [twUrl]; it touches no authorizer that existed
    before and sends nothing.  If the jar accepts them all, the new
    authorizer, holding them, replaces both authorizers of the scraper,
    and [getCookies] then exports only cookies that were imported.  If
    the jar refuses one, [setCookies] throws the jar's error for the first
    such cookie and the scraper keeps the session it had. *)
Theorem setCookies_replaces_session (cs : list Cookie) (s : XState) :
  let run := setCookies Cookie_parse jar_refuses (inr <$> cs) s in
  (∀ l, l ∈ dom (heap s) → heap run.2 !! l = heap s !! l) ∧
  remote run.2 = remote s ∧
  trace run.2 = trace s ∧
  (Forall (λ c, jar_refuses c twUrl = None) cs →
   run.1 = Returned tt ∧
   auth (this run.2) = authTrends (this run.2) ∧
   (auth (this run.2) ∉ dom (heap s)) ∧
   token (this run.2) = token (this s) ∧
   heap run.2 !! auth (this run.2)
   = Some {| auth_class := TwitterUserAuth; auth_bearer := token (this s);
             auth_jar := foldl CookieJar_setCookie ∅ cs |} ∧
   ∃ exported,
     (getCookies document_location cookie_matches run.2).1
     = Returned exported ∧
     ∀ c, c ∈ exported → c ∈ cs) ∧
  (∀ before c after e,
     cs = before ++ c :: after →
     Forall (λ c, jar_refuses c twUrl = None) before →
     jar_refuses c twUrl = Some e →
     run.1 = Threw e ∧ this run.2 = this s).
Proof.
  intros run. subst run.
  set (l := fresh (dom (heap s))).
  assert (l ∉ dom (heap s)) as Hl by apply is_fresh.
  assert (∀ o l0, l0 ∈ dom (heap s) →
            <[l := o]> (heap s) !! l0 = heap s !! l0) as Hkeep.
  { intros o l0 Hl0. apply lookup_insert_ne. by intros ->. }
  split_and!.
  - destruct (Forall_or_first (λ c, jar_refuses c twUrl = None) cs)
      as [Hok|(before & c & after & -> & Hok & Hc)].
    + rewrite setCookies_run by done. apply Hkeep.
    + destruct (jar_refuses c twUrl) as [e|] eqn:He; [|done].
      rewrite (setCookies_refused before after c e) by done. apply Hkeep.
  - destruct (Forall_or_first (λ c, jar_refuses c twUrl = None) cs)
      as [Hok|(before & c & after & -> & Hok & Hc)].
    + by rewrite setCookies_run.
    + destruct (jar_refuses c twUrl) as [e|] eqn:He; [|done].
      by rewrite (setCookies_refused before after c e).
  - destruct (Forall_or_first (λ c, jar_refuses c twUrl = None) cs)
      as [Hok|(before & c & after & -> & Hok & Hc)].
    + by rewrite setCookies_run.
    + destruct (jar_refuses c twUrl) as [e|] eqn:He; [|done].
      by rewrite (setCookies_refused before after c e).
  - intros Hok. rewrite setCookies_run by done.
    cbn [fst snd this heap auth authTrends token]. fold l.
    split; [done|]. split; [done|]. split; [done|]. split; [done|].
    split; [apply lookup_insert_eq|].
    unfold getCookies, bind, get_this, deref, ret.
    cbn [fst snd this heap auth authTrends].
    rewrite lookup_insert_eq. cbn [fst auth_jar].
    eexists. split; [reflexivity|].
    intros c Hc. unfold CookieJar_getCookies in Hc.
    apply list_elem_of_fmap in Hc as [[k d] [-> Hkd]].
    apply elem_of_map_to_list in Hkd.
    apply map_lookup_filter_Some in Hkd as [Hkd _].
    by apply foldl_setCookie_lookup.
  - intros before c after e -> Hok Hc.
    by rewrite (setCookies_refused before after c e).
Qed.

End SessionExtras.

(** ** Command line: [parseCommandLine] *)

Lemma parse_from_end (args : list (list ascii)) (currentArg : list ascii)
    (inQuotes : bool) :
  currentArg ≠ [] →
  parse_from [] args currentArg inQuotes = args ++ [currentArg].
Proof. by destruct currentArg. Qed.

(** Characters that neither toggle the quotes nor separate are appended to
    the current argument. *)
Lemma parse_from_word (w rest : list ascii) (args : list (list ascii))
    (currentArg : list ascii) (inQuotes : bool) :
  quote_char ∉ w →
  inQuotes = true ∨ space_char ∉ w →
  parse_from (w ++ rest) args currentArg inQuotes
  = parse_from rest args (currentArg ++ w) inQuotes.
Proof.
  revert currentArg. induction w as [|c w IH]; intros cur Hq Hs.
  - by rewrite app_nil_r.
  - apply not_elem_of_cons in Hq as [Hc Hq]. cbn [app parse_from].
    rewrite bool_decide_eq_false_2 by done.
    assert (bool_decide (c = space_char) && negb inQuotes = false) as ->.
    { destruct Hs as [-> | Hs]; [apply andb_false_r|].
      apply not_elem_of_cons in Hs as [Hc' _].
      by rewrite bool_decide_eq_false_2. }
    rewrite IH; [by rewrite <- app_assoc | done |].
    destruct Hs as [? | Hs]; [by left | right].
    by apply not_elem_of_cons in Hs as [_ ?].
Qed.

Lemma parse_from_written (w rest : list ascii) (args : list (list ascii)) :
  quote_char ∉ w →
  parse_from (written w ++ rest) args [] false
  = parse_from rest args w false.
Proof.
  intros Hq. unfold written. case_bool_decide as Hs.
  - unfold quoted. cbn [app parse_from].
    rewrite bool_decide_eq_true_2 by done. rewrite <- app_assoc.
    rewrite parse_from_word by (done || by left).
    cbn [app parse_from]. by rewrite bool_decide_eq_true_2.
  - rewrite parse_from_word by (done || by right). done.
Qed.

Lemma parse_from_join_written (ws : list (list ascii))
    (args : list (list ascii)) :
  Forall passable ws →
  parse_from (join_spaces (written <$> ws)) args [] false = args ++ ws.
Proof.
  revert args. induction ws as [|w ws IH]; intros args Hws.
  - by rewrite app_nil_r.
  - apply Forall_cons in Hws as [[Hne Hq] Hws].
    destruct ws as [|w' ws].
    + cbn [fmap list_fmap join_spaces].
      rewrite <- (app_nil_r (written w)), parse_from_written by done.
      by apply parse_from_end.
    + change (join_spaces (written <$> w :: w' :: ws))
        with (written w ++ space_char :: join_spaces (written <$> w' :: ws)).
      rewrite parse_from_written by done. cbn [parse_from].
      rewrite bool_decide_eq_false_2 by done.
      rewrite bool_decide_eq_true_2 by done. cbn [andb negb].
      destruct w as [|c w]; [done|].
      rewrite IH by done. by rewrite <- app_assoc.
Qed.

(** X17. Round trip of the shell's command line: arguments that are not
    empty and hold no quote character, each written as it is or between
    quotes when it holds a space, and joined by single spaces, are parsed
    back to exactly these arguments. *)
Theorem parseCommandLine_reads_back (ws : list (list ascii)) :
  Forall passable ws →
  parseCommandLine (join_spaces (written <$> ws)) = ws.
Proof.
  intros Hws. unfold parseCommandLine.
  by rewrite parse_from_join_written.
Qed.

Lemma parse_from_passable (commandLine : list ascii)
    (args : list (list ascii)) (currentArg : list ascii) (inQuotes : bool) :
  Forall passable args →
  quote_char ∉ currentArg →
  Forall passable (parse_from commandLine args currentArg inQuotes).
Proof.
  revert args currentArg inQuotes.
  induction commandLine as [|c l IH]; intros args cur q Hargs Hcur.
  - destruct cur as [|c cur]; [done|].
    cbn [parse_from]. apply Forall_app. split; [done|].
    by apply Forall_singleton.
  - cbn [parse_from]. case_bool_decide as Hc; [by apply IH|].
    destruct (bool_decide (c = space_char) && negb q).
    + destruct cur as [|c' cur]; [by apply IH|].
      apply IH; [|apply not_elem_of_nil].
      apply Forall_app. split; [done|]. by apply Forall_singleton.
    + apply IH; [done|]. rewrite elem_of_app, list_elem_of_singleton.
      intros [? | ?]; [done | by apply Hc].
Qed.

(** X18. Whatever the command line, no argument [parseCommandLine] returns
    is empty and none holds a quote character. *)
Theorem parseCommandLine_arguments_passable (commandLine : list ascii) :
  Forall passable (parseCommandLine commandLine).
Proof.
  apply parse_from_passable; [done | apply not_elem_of_nil].
Qed.

Lemma parse_from_quote_pair (a b : list ascii) (args : list (list ascii))
    (currentArg : list ascii) (inQuotes : bool) :
  parse_from (a ++ quote_char :: quote_char :: b) args currentArg inQuotes
  = parse_from (a ++ b) args currentArg inQuotes.
Proof.
  revert args currentArg inQuotes.
  induction a as [|c a IH]; intros args cur q.
  - cbn [app parse_from]. rewrite bool_decide_eq_true_2 by done.
    by rewrite negb_involutive.
  - cbn [app parse_from]. case_bool_decide; [done|].
    destruct (bool_decide (c = space_char) && negb q); [|done].
    by destruct cur.
Qed.

(** X19. Two quote characters in a row change nothing: the line is parsed
    as if they were not there, so an empty argument between quotes is
    never passed on. *)
Theorem parseCommandLine_drops_empty_quotes (a b : list ascii) :
  parseCommandLine (a ++ quote_char :: quote_char :: b)
  = parseCommandLine (a ++ b).
Proof. apply parse_from_quote_pair. Qed.

Lemma parse_from_concat (commandLine : list ascii)
    (args : list (list ascii)) (currentArg : list ascii) :
  quote_char ∉ commandLine →
  concat (parse_from commandLine args currentArg false)
  = concat args ++ currentArg
      ++ filter (λ c, c ≠ space_char) commandLine.
Proof.
  revert args currentArg.
  induction commandLine as [|c l IH]; intros args cur Hq.
  - rewrite filter_nil, app_nil_r. destruct cur as [|c cur].
    + by rewrite app_nil_r.
    + cbn [parse_from]. rewrite concat_app. cbn [concat].
      by rewrite app_nil_r.
  - apply not_elem_of_cons in Hq as [Hc Hq]. cbn [parse_from].
    rewrite bool_decide_eq_false_2 by done. cbn [negb].
    rewrite andb_true_r. case_bool_decide as Hs.
    + rewrite filter_cons_False by (by intros ?).
      destruct cur as [|c' cur]; [by rewrite IH|].
      rewrite IH by done. rewrite concat_app. cbn [concat].
      by rewrite app_nil_r, <- app_assoc.
    + rewrite filter_cons_True by done. rewrite IH by done.
      by rewrite <- (app_assoc cur).
Qed.

(** X20. On a line without quote characters the arguments, put together,
    are the line without its spaces: no other character is lost, added or
    moved. *)
Theorem parseCommandLine_keeps_characters (commandLine : list ascii) :
  quote_char ∉ commandLine →
  concat (parseCommandLine commandLine)
  = filter (λ c, c ≠ space_char) commandLine.
Proof.
  intros Hq. unfold parseCommandLine. by rewrite parse_from_concat.
Qed.

(** X21. On a line without quote characters no argument holds a space. *)
Theorem parseCommandLine_splits_at_spaces (commandLine : list ascii) :
  quote_char ∉ commandLine →
  Forall (λ w, space_char ∉ w) (parseCommandLine commandLine).
Proof.
  intros Hq. unfold parseCommandLine.
  assert (∀ l args cur,
    quote_char ∉ l → Forall (λ w, space_char ∉ w) args → space_char ∉ cur →
    Forall (λ w, space_char ∉ w) (parse_from l args cur false)) as Hgen.
  { induction l as [|c l IH]; intros args cur Hl Hargs Hcur.
    - destruct cur as [|c cur]; [done|]. cbn [parse_from].
      apply Forall_app. split; [done|]. by apply Forall_singleton.
    - apply not_elem_of_cons in Hl as [Hc Hl]. cbn [parse_from].
      rewrite bool_decide_eq_false_2 by done. cbn [negb].
      rewrite andb_true_r. case_bool_decide as Hs.
      + destruct cur as [|c' cur]; [by apply IH|].
        apply IH; [done | | apply not_elem_of_nil].
        apply Forall_app. split; [done|]. by apply Forall_singleton.
      + apply IH; [done | done |].
        rewrite elem_of_app, list_elem_of_singleton.
        intros [? | ?]; [done | by apply Hs]. }
  apply Hgen; [done | done | apply not_elem_of_nil].
Qed.

(** * Concrete runs *)

Lemma paged_service_exhausts (userId : string) :
  exhausts paged_service userId (λ _ _, True) (λ _ pages, length pages).
Proof.
  intros count cursor pages v rem' _ Hres Hnext. split; [done|].
  unfold paged_service in Hres.
  destruct pages as [|p rest]; inversion Hres; subst; simpl in *;
    [discriminate | lia].
Qed.


Lemma stalled_service_nonempty : pages_nonempty stalled_service.
Proof. intros req [] v rem' _ Hres. inversion Hres. done. Qed.


(** The stateless timeline, run under a cap of ten: three fetches with
    the cursors threaded, five tweets. *)
Lemma cursor_service_three_fetches :
  let run := getUserTweetsIterator cursor_service 3 "u" 10 (ex_state tt) in
  run.1 = Returned tt ∧
  requests (trace run.2)
  = [UserTweets "u" 10 None; UserTweets "u" 8 (Some "c1");
     UserTweets "u" 6 (Some "c2")] ∧
  tweet_id <$> yielded (trace run.2)
  = [Some "1"; Some "2"; Some "3"; Some "4"; Some "5"].
Proof. vm_compute. repeat split; reflexivity. Qed.

(** C4 as stated fails: with two consecutive pages sharing the boundary
    tweet "2" and room under the cap, the tweet "2" is yielded twice. *)
Lemma overlapping_pages_boundary_yielded_twice :
  let run := getUserTweetsIterator paged_service 10 "u" 10
               (ex_state overlapping_pages) in
  run.1 = Returned tt ∧
  tweet_id <$> yielded (trace run.2)
  = [Some "1"; Some "2"; Some "2"; Some "3"] ∧
  count_id "2" (yielded (trace run.2)) = 2 ∧
  count_id "2" (yielded (trace run.2)) ≠ 1.
Proof. vm_compute. repeat split; congruence. Qed.

(** C5 as stated fails: the service returns the cursor "c" with a
    non-empty page every time, and a third fetch is issued all the same. *)
Lemma stalled_cursor_third_fetch :
  let run := getUserTweetsIterator stalled_service 10 "u" 3 (ex_state tt) in
  fetched_cursors (trace run.2) = [Some "c"; Some "c"; Some "c"] ∧
  length <$> fetched_pages (trace run.2) = [1; 1; 1] ∧
  requests (trace run.2)
  = [UserTweets "u" 3 None; UserTweets "u" 2 (Some "c");
     UserTweets "u" 1 (Some "c")] ∧
  ¬ length (requests (trace run.2)) ≤ 2.
Proof. vm_compute. repeat split; try reflexivity. lia. Qed.

(** C5 (amended), on the stalled service with a cap of three. *)
Lemma getUserTweetsIterator_stops_at_cap_only_witness :
  pages_nonempty stalled_service ∧ 3 ≤ 10 ∧
  let run := getUserTweetsIterator stalled_service 10 "u" 3 (ex_state tt) in
  run.1 ≠ OutOfFuel ∧
  ∃ evs,
    trace run.2 = trace (ex_state tt) ++ evs ∧
    length (requests evs) ≤ 3 ∧
    (forallb carries_cursor evs = true → length (yielded evs) = 3).
Proof.
  split; [exact stalled_service_nonempty|]. split; [lia|].
  apply (getUserTweetsIterator_stops_at_cap_only stalled_service 10 "u" 3
           (ex_state tt) stalled_service_nonempty). lia.
Defined.

(** C1, on a fresh scraper whose login the server aborts. *)
Lemma login_failure_keeps_session_witness :
  let run := login aborted_negotiation ex_credentials guest_session in
  scraper_wf guest_session ∧
  run = (Threw (Error "Unknown subtask DenyLoginSubtask"), run.2) ∧
  this run.2 = this guest_session ∧
  (∀ l, l ∈ dom (heap guest_session) →
        heap run.2 !! l = heap guest_session !! l) ∧
  (isLoggedIn run.2).1 = (isLoggedIn guest_session).1 ∧
  trace run.2 = trace guest_session.
Proof.
  intros run.
  assert (scraper_wf guest_session) as Hwf
    by (split; vm_compute; eexists; reflexivity).
  assert (run = (Threw (Error "Unknown subtask DenyLoginSubtask"), run.2))
    as Hrun by (vm_compute; reflexivity).
  destruct (login_failure_keeps_session aborted_negotiation ex_credentials
              guest_session run.2 _ Hwf Hrun)
    as (Hthis & Hheap & Hlogged & Htrace & _).
  exact (conj Hwf (conj Hrun (conj Hthis (conj Hheap
           (conj Hlogged Htrace))))).
Defined.

(** C2, on the cookies of a logged-in session. *)
Lemma cookie_round_trip_witness :
  let cookies := [ex_cookie "ct0" "b"; ex_cookie "auth_token" "a"] in
  let fresh_scraper := (Scraper_constructor "bearer" user_session).2 in
  let imported :=
    setCookies (λ _, None) CookieJar_refuses (inr <$> cookies)
      fresh_scraper in
  getCookies None (λ _ _, true) user_session
  = (Returned cookies, user_session) ∧
  imported.1 = Returned tt ∧
  (isLoggedIn imported.2).1 = Returned true ∧
  (getCookies None (λ _ _, true) imported.2).1 = Returned cookies.
Proof.
  intros cookies fresh_scraper imported.
  assert (getCookies None (λ _ _, true) user_session
          = (Returned cookies, user_session)) as Hget
    by (vm_compute; reflexivity).
  destruct (cookie_round_trip "bearer" None (λ _ _, true) (λ _, None)
              user_session user_session cookies Hget)
    as (Hset & Hin & Hout & _).
  exact (conj Hget (conj Hset (conj Hin Hout))).
Defined.

(** The 12 MiB video: three APPENDs with indices 0, 1, 2 (5 MiB, 5 MiB and
    2 MiB), then FINALIZE, then the STATUS polls. *)
Lemma upload_12MiB_video_trace :
  let run := uploadMedia media_service video_12MiB video_mp4
               (ex_state [Success (in_progress (Some 2%Z));
                          Success (ExMedia no_media)]) in
  run.1 = Returned no_media ∧
  commands (trace run.2)
  = ["INIT"; "APPEND"; "APPEND"; "APPEND"; "FINALIZE"; "STATUS"; "STATUS"] ∧
  append_segments (trace run.2)
  = [(0, 5242880); (1, 5242880); (2, 2097152)]%N ∧
  waits (trace run.2) = [2000%Z].
Proof. vm_compute. repeat split; reflexivity. Qed.

(** C7 as stated fails: when a STATUS request itself fails, the poll ends
    in a fourth way; and a suggested wait of 0 seconds is replaced by the
    5 second default. *)
Lemma status_failure_is_a_fourth_outcome :
  (let run := uploadMedia media_service video_12MiB video_mp4
                (ex_state [Failure (Error "503")]) in
   commands (trace run.2)
   = ["INIT"; "APPEND"; "APPEND"; "APPEND"; "FINALIZE"; "STATUS"] ∧
   run.1 = Threw (Error "Failed to check media processing status") ∧
   ¬ three_outcomes run.1) ∧
  (let run := checkMediaProcessingStatus media_service "710"
                (ex_state [Success (in_progress (Some 0%Z));
                           Success (ExMedia no_media)]) in
   run.1 = Returned no_media ∧ waits (trace run.2) = [5000%Z]).
Proof.
  split.
  - vm_compute. repeat split; try reflexivity.
    intros [[r Hr]|[Hr|Hr]]; discriminate Hr.
  - vm_compute. split; reflexivity.
Qed.

(** A STATUS request answered with a null body: the unguarded read of
    [processing_info] throws, after one request. *)
Lemma null_status_body_is_a_type_error :
  let run := checkMediaProcessingStatus media_service "710"
               (ex_state [Success ExNull]) in
  run.1 = Threw (TypeError "processing_info") ∧
  commands (trace run.2) = ["STATUS"] ∧
  waits (trace run.2) = [].
Proof. vm_compute. repeat split; reflexivity. Qed.

(** C8: an image one byte over 5 MiB.  INIT declares 5242881 bytes, the
    single APPEND carries the first 5242880 of them, FINALIZE follows and
    the upload returns: the last byte is never sent. *)
Theorem uploadMedia_image_over_5MiB_is_cut :
  let run := uploadMedia media_service image_5MiB_plus_1 image_jpeg
               (ex_state []) in
  (∃ r, run.1 = Returned r) ∧
  commands (trace run.2) = ["INIT"; "APPEND"; "FINALIZE"] ∧
  declared_bytes (trace run.2) = [5242881%N] ∧
  append_segments (trace run.2) = [(0, 5242880)]%N.
Proof. vm_compute. repeat split; try reflexivity. eexists; reflexivity. Qed.

(** C9, on the conversation around the focal tweet "2", and on a focal id
    that is not in it. *)
Lemma getTweet_focal_or_null_witness :
  conversation_service (TweetDetail "2") tt
  = (Success (ExConversation [mk_tweet "1"; mk_tweet "2"; mk_tweet "3"]),
     tt) ∧
  (getTweet conversation_service "2" (ex_state tt)).1
  = Returned (Some (mk_tweet "2")) ∧
  (getTweet conversation_service "9" (ex_state tt)).1 = Returned None ∧
  ∃ found,
    (getTweet conversation_service "2" (ex_state tt)).1 = Returned found ∧
    match found with
    | Some t =>
        tweet_id t = Some "2" ∧
        ∃ before after,
          flattened
            (ExConversation [mk_tweet "1"; mk_tweet "2"; mk_tweet "3"])
          = before ++ t :: after ∧
          Forall (λ t', tweet_id t' ≠ Some "2") before
    | None =>
        Forall (λ t', tweet_id t' ≠ Some "2")
          (flattened
             (ExConversation [mk_tweet "1"; mk_tweet "2"; mk_tweet "3"]))
    end.
Proof.
  assert (conversation_service (TweetDetail "2") tt
          = (Success (ExConversation
                        [mk_tweet "1"; mk_tweet "2"; mk_tweet "3"]), tt))
    as Hok by reflexivity.
  split; [exact Hok|]. split; [by vm_compute|]. split; [by vm_compute|].
  exact (proj1 (getTweet_focal_or_null conversation_service "2"
                  (ex_state tt) _ tt Hok)).
Defined.


(** C4 (amended), on the two overlapping pages: the boundary tweet "2" is
    on both pages and is yielded twice. *)
Lemma getUserTweetsIterator_yields_pages_in_order_witness :
  ∃ evs,
    trace (getUserTweetsIterator paged_service 10 "u" 10
             (ex_state overlapping_pages)).2 = evs ∧
    yielded evs = take 10 (concat (fetched_pages evs)) ∧
    length (concat (fetched_pages evs)) ≤ 10 ∧
    count_id "2" (yielded evs) = 2.
Proof.
  destruct (getUserTweetsIterator_yields_pages_in_order paged_service 10 "u"
              10 (ex_state overlapping_pages)) as (evs & Htr & Hy & Hcount).
  exists evs. simpl in Htr. split; [exact Htr|]. split; [exact Hy|].
  assert (length (concat (fetched_pages evs)) ≤ 10) as Hlen
    by (rewrite <- Htr; vm_compute; lia).
  split; [exact Hlen|].
  rewrite (Hcount "2" Hlen), <- Htr. reflexivity.
Defined.

(** X4, on the two overlapping pages with room under the cap. *)
Lemma getUserTweetsIterator_returns_when_done_witness :
  let s := ex_state overlapping_pages in
  let run := getUserTweetsIterator paged_service 10 "u" 10 s in
  run.1 = Returned tt ∧
  ∃ evs,
    trace run.2 = trace s ++ evs ∧
    (length (yielded evs) = 10
     ∨ ∃ c, last (fetched_cursors evs) = Some c ∧ truthy_str c = false).
Proof.
  intros s run.
  assert (run.1 = Returned tt) as Hrun by (vm_compute; reflexivity).
  exact (conj Hrun
           (getUserTweetsIterator_returns_when_done paged_service 10 "u" 10
              s Hrun)).
Defined.

Lemma empty_service_empty_pages : empty_pages_with_cursor empty_service.
Proof. intros req []. eexists _, _. split; [reflexivity|]. by split. Qed.

(** X5, on the service of empty pages with a cap of three. *)
Lemma getUserTweetsIterator_spins_on_empty_pages_witness :
  empty_pages_with_cursor empty_service ∧ 0 < 3 ∧
  let run := getUserTweetsIterator empty_service 25 "u" 3 (ex_state tt) in
  run.1 = OutOfFuel ∧
  ∃ evs,
    trace run.2 = trace (ex_state tt) ++ evs ∧
    length (requests evs) = 25 ∧
    yielded evs = [].
Proof.
  assert (0 < 3) as Hcap by lia.
  exact (conj empty_service_empty_pages (conj Hcap
           (getUserTweetsIterator_spins_on_empty_pages empty_service 25 "u"
              3 (ex_state tt) empty_service_empty_pages Hcap))).
Defined.

(** X7, on three tweets and the plain predicate picking the tweet "2". *)
Lemma getTweetWhere_is_first_of_getTweetsWhere_witness :
  let ts := [mk_tweet "1"; mk_tweet "2"; mk_tweet "3"] in
  synchronous (ByPredicate is_tweet_2) ∧
  getTweetWhere ts (ByPredicate is_tweet_2)
  = Returned (head (getTweetsWhere ts (ByPredicate is_tweet_2))).
Proof.
  intros ts.
  assert (synchronous (ByPredicate is_tweet_2)) as Hsync
    by (intros t; eexists; reflexivity).
  exact (conj Hsync
           (getTweetWhere_is_first_of_getTweetsWhere ts
              (ByPredicate is_tweet_2) Hsync)).
Defined.

(** X8, on three tweets and the predicate whose promise rejects on the
    tweet "2". *)
Lemma getTweetWhere_throws_rejection_witness :
  let ts := [mk_tweet "1"] ++ mk_tweet "2" :: [mk_tweet "3"] in
  (∀ t', t' ∈ [mk_tweet "1"] →
         await_result (rejects_tweet_2 t') = Returned false) ∧
  rejects_tweet_2 (mk_tweet "2") = Async (Rejected (Error "lookup failed")) ∧
  getTweetWhere ts (ByPredicate rejects_tweet_2)
  = Threw (Error "lookup failed") ∧
  mk_tweet "2" ∈ getTweetsWhere ts (ByPredicate rejects_tweet_2).
Proof.
  intros ts.
  assert (∀ t', t' ∈ [mk_tweet "1"] →
            await_result (rejects_tweet_2 t') = Returned false) as Hbefore
    by (intros t' ->%list_elem_of_singleton; vm_compute; reflexivity).
  assert (rejects_tweet_2 (mk_tweet "2")
          = Async (Rejected (Error "lookup failed"))) as Hrej
    by (vm_compute; reflexivity).
  exact (conj Hbefore (conj Hrej
           (getTweetWhere_throws_rejection rejects_tweet_2 [mk_tweet "1"]
              [mk_tweet "3"] (mk_tweet "2") (Error "lookup failed")
              Hbefore Hrej))).
Defined.

(** X11, on an image of three bytes: the FINALIZE response is returned. *)
Lemma uploadMedia_returns_last_response_witness :
  let s := ex_state [] in
  let r := asMediaUploadResponse (in_progress (Some 1%Z)) in
  let run := uploadMedia media_service (zero_buffer 3) image_jpeg s in
  run.1 = Returned r ∧
  ∃ evs v,
    trace run.2 = trace s ++ evs ∧
    last (results evs) = Some (Success v) ∧
    r = asMediaUploadResponse v ∧
    (∃ mediaId, last (requests evs) = Some (MediaFinalize mediaId)
                ∨ last (requests evs) = Some (MediaStatus mediaId)).
Proof.
  intros s r run.
  assert (run.1 = Returned r) as Hrun by (vm_compute; reflexivity).
  exact (conj Hrun
           (uploadMedia_returns_last_response media_service (zero_buffer 3)
              image_jpeg s r Hrun)).
Defined.

Lemma user_session_wf : scraper_wf user_session.
Proof. split; vm_compute; eexists; reflexivity. Qed.

Lemma user_session_auth :
  heap user_session !! auth (this user_session) = Some user_authorizer.
Proof. vm_compute. reflexivity. Qed.

Lemma user_session_authTrends :
  heap user_session !! authTrends (this user_session)
  = Some user_authorizer.
Proof. vm_compute. reflexivity. Qed.

(** X14, on a logged-in session whose server-side logout succeeds. *)
Lemma logout_resets_only_on_success_witness :
  let run := logout accepted_logout user_session in
  heap user_session !! auth (this user_session) = Some user_authorizer ∧
  is_Some (heap user_session !! authTrends (this user_session)) ∧
  run.1 = Returned tt ∧
  auth (this run.2) ≠ authTrends (this run.2) ∧
  (isLoggedIn run.2).1 = Returned false ∧
  (getCookies None (λ _ _, true) run.2).1 = Returned [].
Proof.
  intros run.
  pose proof (logout_resets_only_on_success accepted_logout None
                (λ _ _, true) user_session user_authorizer
                user_session_auth (proj2 user_session_wf)) as Hlogout.
  cbn [accepted_logout] in Hlogout.
  destruct Hlogout as (o2 & _ & Hlogout). cbn [accepted_logout] in Hlogout.
  destruct Hlogout
    as (Hrun & _ & _ & _ & Hne & _ & _ & _ & Hlogged & Hcookies).
  exact (conj user_session_auth (conj (proj2 user_session_wf)
           (conj Hrun (conj Hne (conj Hlogged Hcookies))))).
Defined.

(** X15, on a logged-in session, whose two authorizers are one object. *)
Lemma clearCookies_empties_jars_witness :
  let run := clearCookies user_session in
  heap user_session !! auth (this user_session) = Some user_authorizer ∧
  heap user_session !! authTrends (this user_session)
  = Some user_authorizer ∧
  run.1 = Returned tt ∧
  this run.2 = this user_session ∧
  remote run.2 = remote user_session ∧
  trace run.2 = trace user_session ∧
  heap run.2 !! auth (this user_session)
  = Some {| auth_class := auth_class user_authorizer;
            auth_bearer := auth_bearer user_authorizer; auth_jar := ∅ |} ∧
  heap run.2 !! authTrends (this user_session)
  = Some {| auth_class := auth_class user_authorizer;
            auth_bearer := auth_bearer user_authorizer; auth_jar := ∅ |} ∧
  (∀ l, l ≠ auth (this user_session) →
        l ≠ authTrends (this user_session) →
        heap run.2 !! l = heap user_session !! l) ∧
  (getCookies None (λ _ _, true) run.2).1 = Returned [].
Proof.
  exact (conj user_session_auth (conj user_session_authTrends
           (clearCookies_empties_jars None (λ _ _, true) user_session
              user_authorizer user_authorizer user_session_auth
              user_session_authTrends))).
Defined.

Lemma ex_arguments_passable : Forall passable ex_arguments.
Proof.
  repeat constructor; try discriminate;
    apply (bool_decide_unpack _); vm_compute; exact I.
Qed.

Lemma ex_line_no_quote : quote_char ∉ ex_line.
Proof. apply (bool_decide_unpack _). vm_compute. exact I. Qed.

(** X17, on the arguments [tweet] and [hello world]. *)
Lemma parseCommandLine_reads_back_witness :
  Forall passable ex_arguments ∧
  parseCommandLine (join_spaces (written <$> ex_arguments)) = ex_arguments.
Proof.
  exact (conj ex_arguments_passable
           (parseCommandLine_reads_back ex_arguments ex_arguments_passable)).
Defined.

(** X20, on a line with a doubled and a trailing space. *)
Lemma parseCommandLine_keeps_characters_witness :
  (quote_char ∉ ex_line) ∧
  concat (parseCommandLine ex_line) = filter (λ c, c ≠ space_char) ex_line.
Proof.
  exact (conj ex_line_no_quote
           (parseCommandLine_keeps_characters ex_line ex_line_no_quote)).
Defined.

(** X21, on the same line. *)
Lemma parseCommandLine_splits_at_spaces_witness :
  (quote_char ∉ ex_line) ∧
  Forall (λ w, space_char ∉ w) (parseCommandLine ex_line).
Proof.
  exact (conj ex_line_no_quote
           (parseCommandLine_splits_at_spaces ex_line ex_line_no_quote)).
Defined.
